(** * Frame scoring of the bowling-like score table (src/script.js)

    A shallow embedding of the scoring core of [drawScoreTable]:
    [validate], [throwString], [frameTotal] (with its helpers [next] and
    [capStrike]) and the two aggregations of the frame row (the running
    sum of lines 151-158 and the [reduce] of line 159).

    Numbers.  Every number the core handles is an integer produced by
    [parseInt] or the marker [NaN]; integers are exact in a JavaScript
    double well beyond the range of a score, so a number is modelled as
    an integer of [Z] or [NaN].

    Arrays.  A throws array is a JavaScript array: a finite map from
    indices to numbers.  Reading an index that holds nothing yields
    [undefined], which every operator applied to a throw in this file
    ([<], [>], [>=], [+], [isNaN]) first converts to [NaN]; writing to an
    index that holds nothing creates it. *)

From stdpp Require Import base gmap list strings pretty.
From Stdlib Require Import ZArith Lia ZifyNat.

Local Open Scope Z_scope.

(** ** Numbers *)

Inductive number : Type :=
  | Num (z : Z)
  | NaN.

Global Instance number_inhabited : Inhabited number := populate NaN.

Module JS.

Definition isNaN (x : number) : bool :=
  match x with NaN => true | Num _ => false end.

(** [x + y] *)
Definition add (x y : number) : number :=
  match x, y with
  | Num a, Num b => Num (a + b)
  | _, _ => NaN
  end.

(** [x - y] *)
Definition sub (x y : number) : number :=
  match x, y with
  | Num a, Num b => Num (a - b)
  | _, _ => NaN
  end.

(** [x < y]: false as soon as one side is [NaN]. *)
Definition lt (x y : number) : bool :=
  match x, y with
  | Num a, Num b => a <? b
  | _, _ => false
  end.

(** [x > y] *)
Definition gt (x y : number) : bool :=
  match x, y with
  | Num a, Num b => b <? a
  | _, _ => false
  end.

(** [x >= y] *)
Definition ge (x y : number) : bool :=
  match x, y with
  | Num a, Num b => b <=? a
  | _, _ => false
  end.

(** [x === y] on numbers: [NaN] is not equal to itself. *)
Definition strict_eq (x y : number) : bool :=
  match x, y with
  | Num a, Num b => a =? b
  | _, _ => false
  end.

(** [x.toString()] *)
Definition toString (x : number) : string :=
  match x with
  | Num z => pretty z
  | NaN => "NaN"
  end.

End JS.

(** ** Arrays *)

Abbreviation array := (gmap nat number).

(** [input[i]] read as a number. *)
Definition get (input : array) (i : nat) : number :=
  default NaN (input !! i).

(** Statements of a [for] loop whose body may [break]. *)
Inductive control : Type := Continue | Break.

Fixpoint for_loop {S : Type} (body : S -> nat -> S * control)
    (s : S) (indices : list nat) : S :=
  match indices with
  | [] => s
  | i :: rest =>
      match body s i with
      | (s', Break) => s'
      | (s', Continue) => for_loop body s' rest
      end
  end.

(** ** The validator (lines 47-62) *)

Section Validator.

Variable frames : nat.
Variable strike : Z.

(** Body of the first loop (lines 49-50), at slot [throws]. *)
Definition clamp_slot (input : array) (throws : nat) : array :=
  let input :=
    if JS.lt (get input throws) (Num 0) then <[throws := Num 0]> input
    else input in
  if JS.gt (get input throws) (Num strike)
  then <[throws := Num strike]> input
  else input.

(** First loop: [throws] from 1 to [frames * 2 + 1]. *)
Definition clamp_pass (input : array) : array :=
  foldl clamp_slot input (seq 1 (frames * 2 + 1)).

(** Lines 58-60. *)
Definition repair_pair (input : array) (frame : nat) : array :=
  let input :=
    if JS.gt (JS.add (get input (frame * 2 - 1)) (get input (frame * 2)))
             (Num strike)
    then <[(frame * 2)%nat :=
             JS.sub (Num strike) (get input (frame * 2 - 1))]> input
    else input in
  if JS.ge (get input (frame * 2 - 1)) (Num strike)
  then <[(frame * 2)%nat := NaN]> input
  else input.

(** Body of the second loop (lines 53-60), at frame [frame]. *)
Definition repair_frame (input : array) (frame : nat) : array * control :=
  if (frame =? frames)%nat then
    if JS.lt (JS.add (get input (frame * 2 - 1)) (get input (frame * 2)))
             (Num strike)
    then (repair_pair (<[(frame * 2 + 1)%nat := NaN]> input) frame, Continue)
    else (input, Break)
  else (repair_pair input frame, Continue).

(** Second loop: [frame] from 1 to [frames]. *)
Definition repair_pass (input : array) : array :=
  for_loop repair_frame input (seq 1 frames).

Definition validate (input : array) : array :=
  repair_pass (clamp_pass input).

End Validator.

(** The throws array of a player as [resetScores] lays it out: slots
    [1 .. length l] hold the values of [l], slot 0 holds nothing. *)
Definition throws_of (l : list number) : array :=
  list_to_map (zip (seq 1 (length l)) l).

(** ** The glyph of a throw (lines 69-83) *)

Definition throwString (frames : nat) (strike : Z) (input : array)
    (throws : nat) : string :=
  let currentThrow := get input throws in
  if JS.isNaN currentThrow then "&nbsp;"
  else if (throws mod 2 =? 1)%nat
          || ((throws =? frames * 2)%nat
              && JS.ge (get input (throws - 1)) (Num strike))
  then
    if JS.ge currentThrow (Num strike) then "X"
    else if JS.strict_eq currentThrow (Num 0) then "G"
    else JS.toString currentThrow
  else if JS.ge (JS.add currentThrow (get input (throws - 1))) (Num strike)
  then "/"
  else if JS.strict_eq currentThrow (Num 0) then "-"
  else JS.toString currentThrow.

(** ** Computations that read the throws, push results and may throw *)

(** What a [catch] can receive here: the engine's [RangeError] ("Maximum
    call stack size exceeded") and the [Error] of line 94. *)
Inductive exn : Type :=
  | RangeError
  | Error (message : string).

Inductive outcome (A : Type) : Type :=
  | Return (a : A)
  | Throw (e : exn).

Arguments Return {A} a.
Arguments Throw {A} e.

(** The two arrays [frameTotal] has in scope: [input], the caller's
    array, and [result], its own. *)
Record heap : Type := Heap {
  input_array : array;
  result_array : list number
}.

Definition M (A : Type) : Type := heap -> heap * outcome A.

Global Instance M_ret : MRet M := fun A a h => (h, Return a).

Global Instance M_bind : MBind M := fun A B f c h =>
  match c h with
  | (h', Return a) => f a h'
  | (h', Throw e) => (h', Throw e)
  end.

Definition throw {A : Type} (e : exn) : M A := fun h => (h, Throw e).

(** [try { c } catch { handler }] *)
Definition try_catch {A : Type} (c handler : M A) : M A := fun h =>
  match c h with
  | (h', Return a) => (h', Return a)
  | (h', Throw _) => handler h'
  end.

(** [input[i]] *)
Definition read (i : nat) : M number := fun h =>
  (h, Return (get (input_array h) i)).

(** [result.push(v)] *)
Definition push (v : number) : M unit := fun h =>
  (Heap (input_array h) (result_array h ++ [v]), Return ()).

Fixpoint for_each (body : nat -> M unit) (indices : list nat) : M unit :=
  match indices with
  | [] => mret ()
  | i :: rest => body i ≫= fun _ => for_each body rest
  end.

(** ** The frame scorer (lines 88-122) *)

Section FrameScorer.

(** The language sets no bound on the depth of recursion, and lines
    92-96 set none either ([next_eval] below is [next] as it is written).
    [next_at] adds what an engine with a call stack of bounded size does:
    it ends a chain of nested calls that outgrows the stack by raising
    [RangeError] in the innermost call, and a [catch] receives it like any
    other exception.  [stack] is the number of activation records such an
    engine still grants when [frameTotal] calls [next]; a call made with
    none left raises [RangeError].  That first clause of [next_at] is an
    assumption about the engine, not code of the script: an engine that
    runs the call of line 93, a tail call in strict code, without taking
    a record never raises it, and there a lookahead past the end of the
    array does not end.  A result that [next_at] owes to that clause alone
    is therefore not a result of the script; wherever [next_at] ends
    otherwise it agrees with [next_eval]. *)
Variable stack : nat.
Variable frames : nat.
Variable strike : Z.

(** Lines 92-96.  The recursive call of line 93 comes before the test
    of line 94. *)
Fixpoint next_at (stack : nat) (throws : nat) : M nat :=
  match stack with
  | O => throw RangeError
  | S stack' =>
      v ← read (throws + 1);
      if JS.isNaN v then next_at stack' (throws + 1)
      else if (frames * 2 + 1 <? throws)%nat
      then throw (Error "Invalid frame access")
      else mret (throws + 1)%nat
  end.

Definition next : nat -> M nat := next_at stack.

Definition capStrike (value : number) : number :=
  if JS.gt value (Num strike) then Num strike else value.

(** Body of the loop of line 100, at first slot [throws]. *)
Definition frame_body (throws : nat) : M unit :=
  try_catch
    (x ← read throws;
     if JS.ge x (Num strike) then
       i ← next throws;
       v ← read i;
       let first := capStrike v in
       j ← next throws;
       i' ← next j;
       v' ← read i';
       let second := capStrike v' in
       push (JS.add (JS.add (Num strike) first) second)
     else
       y ← read (throws + 1);
       x ← read throws;
       if JS.ge (JS.add y x) (Num strike) then
         j ← next throws;
         i ← next j;
         v ← read i;
         push (JS.add (Num strike) (capStrike v))
       else
         y ← read (throws + 1);
         x ← read throws;
         if JS.isNaN y || JS.isNaN x then push NaN
         else
           x ← read throws;
           y ← read (throws + 1);
           push (JS.add x y))
    (push NaN).

(** The values of [throws] in the loop of line 100: 1, 3, ..., while
    at most [frames * 2]. *)
Definition first_slots : list nat :=
  map (fun k => (2 * k + 1)%nat) (seq 0 frames).

(** [frameTotal(input)]: the state of [input] when it finishes, and
    what it returns or throws. *)
Definition frameTotal (input : array) : array * outcome (list number) :=
  match for_each frame_body first_slots (Heap input []) with
  | (h, Return _) => (input_array h, Return (result_array h))
  | (h, Throw e) => (input_array h, Throw e)
  end.

End FrameScorer.

(** [next] as lines 92-96 have it, with no bound on the recursion:
    [next_eval frames input throws r] when the call [next(throws)] ends,
    returning or throwing [r].  A call whose recursion does not end has
    no [r]. *)
Inductive next_eval (frames : nat) (input : array)
    : nat -> outcome nat -> Prop :=
  | next_eval_skip (throws : nat) (r : outcome nat) :
      JS.isNaN (get input (throws + 1)) = true ->
      next_eval frames input (throws + 1) r ->
      next_eval frames input throws r
  | next_eval_throw (throws : nat) :
      JS.isNaN (get input (throws + 1)) = false ->
      (frames * 2 + 1 < throws)%nat ->
      next_eval frames input throws (Throw (Error "Invalid frame access"))
  | next_eval_return (throws : nat) :
      JS.isNaN (get input (throws + 1)) = false ->
      (throws <= frames * 2 + 1)%nat ->
      next_eval frames input throws (Return (throws + 1)%nat).

(** ** The frame row and the total (lines 151-163) *)

(** Value of an expression [isNaN(v) ? "&nbsp;" : v] placed in a cell. *)
Inductive cell : Type :=
  | Blank
  | Shown (v : number).

(** [subtotal[i]] *)
Definition at_index (subtotal : list number) (i : nat) : number :=
  match subtotal !! i with
  | Some v => v
  | None => NaN
  end.

(** Body of the loop of line 151: the state is [sum] and the cells
    written so far. *)
Definition cumulative_cell (subtotal : list number)
    (st : number * list cell) (frame : nat) : number * list cell :=
  let '(sum, row) := st in
  if JS.isNaN (at_index subtotal (frame - 1)) then (sum, row ++ [Blank])
  else
    let sum := JS.add sum (at_index subtotal (frame - 1)) in
    (sum, row ++ [Shown sum]).

Definition cumulative_row (frames : nat) (subtotal : list number) : list cell :=
  snd (foldl (cumulative_cell subtotal) (Num 0, []) (seq 1 frames)).

(** Line 159. *)
Definition total (subtotal : list number) : number :=
  foldl (fun sum value => JS.add sum value) (Num 0) subtotal.

(** Line 162. *)
Definition total_cell (subtotal : list number) : cell :=
  if JS.isNaN (total subtotal) then Blank else Shown (total subtotal).

(** * Vocabulary of the statements *)

(** ** The validator, slot by slot *)

(** What lines 49-50 make of a value. *)
Definition clamp_value (strike : Z) (v : number) : number :=
  match v with
  | Num z =>
      let z := if z <? 0 then 0 else z in
      Num (if strike <? z then strike else z)
  | NaN => NaN
  end.

(** What lines 58-60 make of the second throw [second] (possibly absent)
    of a frame whose first throw is [first]. *)
Definition repaired (strike : Z) (first : number) (second : option number)
    : option number :=
  if JS.ge first (Num strike) then Some NaN
  else if JS.gt (JS.add first (default NaN second)) (Num strike)
  then Some (JS.sub (Num strike) first)
  else second.

(** Lookups after the first loop, from the lookups [g] before. *)
Definition clamped_lookup (frames : nat) (strike : Z)
    (g : nat -> option number) (j : nat) : option number :=
  if decide (1 <= j <= frames * 2 + 1)%nat then clamp_value strike <$> g j
  else g j.

(** Lookups after lines 58-60 have run on the frames [1 .. n], from the
    lookups [c] before: only the second slots of these frames change. *)
Definition repaired_lookup (strike : Z) (n : nat)
    (c : nat -> option number) (j : nat) : option number :=
  if decide (j mod 2 = 0 /\ 2 <= j <= 2 * n)%nat
  then repaired strike (default NaN (c (j - 1)%nat)) (c j)
  else c j.

(** Lookups of the validated array, from the lookups [c] after the
    first loop. *)
Definition validated_lookup (frames : nat) (strike : Z)
    (c : nat -> option number) (j : nat) : option number :=
  if decide (frames = 0)%nat then c j
  else if JS.lt (JS.add (default NaN (c (frames * 2 - 1)%nat))
                        (default NaN (c (frames * 2)%nat)))
                (Num strike)
  then
    if decide (j = frames * 2 + 1)%nat then Some NaN
    else repaired_lookup strike frames c j
  else repaired_lookup strike (frames - 1) c j.

(** Every slot [1 .. frames * 2 + 1] of [c] holds a value that the
    first loop does not change. *)
Definition clamped (frames : nat) (strike : Z) (c : nat -> option number)
    : Prop :=
  forall i, (1 <= i <= frames * 2 + 1)%nat ->
    clamp_value strike <$> c i = c i.

(** The last frame's two throws are both recorded and sum to strictly
    less than the strike value. *)
Definition below_strike (strike : Z) (first second : number) : Prop :=
  exists x y, first = Num x /\ second = Num y /\ x + y < strike.

(** The repair rule of lines 58-60 at frame [frame], between the array
    [clamped] the second loop starts from and the array [validated] it
    ends with: a first throw at or above the strike value leaves the
    second slot unrecorded; below it, two recorded throws that summed to
    more than the strike value leave the second throw at the strike value
    minus the first, and two recorded throws sum to at most the strike
    value. *)
Definition repair_rule (strike : Z) (clamped validated : array) (frame : nat)
    : Prop :=
  let first := get validated (frame * 2 - 1) in
  let second := get validated (frame * 2) in
  (forall x, first = Num x -> strike <= x -> second = NaN)
  /\ (forall x y, first = Num x -> x < strike ->
        get clamped (frame * 2) = Num y -> strike < x + y ->
        second = Num (strike - x))
  /\ (forall x y, first = Num x -> x < strike -> second = Num y ->
        x + y <= strike).

(** ** The frame scorer, from the array alone *)

(** What [next(throws)] returns or throws, from the array alone. *)
Fixpoint next_outcome (frames : nat) (input : array) (stack throws : nat)
    : outcome nat :=
  match stack with
  | O => Throw RangeError
  | S stack' =>
      if JS.isNaN (get input (throws + 1))
      then next_outcome frames input stack' (throws + 1)
      else if (frames * 2 + 1 <? throws)%nat
      then Throw (Error "Invalid frame access")
      else Return (throws + 1)%nat
  end.

(** The value one pass of the loop of line 100 pushes, from the array
    alone. *)
Definition frame_score (stack frames : nat) (strike : Z) (input : array)
    (throws : nat) : number :=
  let next := next_outcome frames input stack in
  if JS.ge (get input throws) (Num strike) then
    match next throws with
    | Throw _ => NaN
    | Return i =>
        match next throws with
        | Throw _ => NaN
        | Return j =>
            match next j with
            | Throw _ => NaN
            | Return i' =>
                JS.add (JS.add (Num strike) (capStrike strike (get input i)))
                       (capStrike strike (get input i'))
            end
        end
    end
  else if JS.ge (JS.add (get input (throws + 1)) (get input throws))
                (Num strike)
  then
    match next throws with
    | Throw _ => NaN
    | Return j =>
        match next j with
        | Throw _ => NaN
        | Return i => JS.add (Num strike) (capStrike strike (get input i))
        end
    end
  else if JS.isNaN (get input (throws + 1)) || JS.isNaN (get input throws)
  then NaN
  else JS.add (get input throws) (get input (throws + 1)).

(** No recorded throw after slot [p]: every later slot holds [NaN] or
    nothing. *)
Definition exhausted (input : array) (p : nat) : Prop :=
  forall i, (p < i)%nat -> get input i = NaN.

(** ** The frame row *)

(** Sum of the recorded values of [l]. *)
Fixpoint recorded_sum (l : list number) : Z :=
  match l with
  | [] => 0
  | Num z :: l => z + recorded_sum l
  | NaN :: l => recorded_sum l
  end.

(** The cell of frame [k + 1]. *)
Definition cumulative_cell_of (subtotal : list number) (k : nat) : cell :=
  if JS.isNaN (at_index subtotal k) then Blank
  else Shown (Num (recorded_sum (take (S k) subtotal))).

(** The rule C1 states: from the first incomplete frame on, every cell
    of the row is blank. *)
Definition short_circuits (subtotal : list number) : Prop :=
  forall i j, subtotal !! i = Some NaN -> (i <= j < length subtotal)%nat ->
    cumulative_row (length subtotal) subtotal !! j = Some Blank.

(** ** The glyphs *)

(** The glyph of a first throw [v]. *)
Definition first_throw_glyph (strike v : Z) : string :=
  if strike <=? v then "X" else if v =? 0 then "G" else pretty v.

(** The glyph of a second throw [v] after the throw [previous]. *)
Definition second_throw_glyph (strike v : Z) (previous : number) : string :=
  if JS.ge (JS.add (Num v) previous) (Num strike) then "/"
  else if v =? 0 then "-" else pretty v.

(** ** A game of strikes *)

(** Ten frames with a strike value of ten: ten in the first slot of each
    frame and in the two slots that end the array, nothing recorded in
    the other slots. *)
Definition all_strikes : array :=
  throws_of (concat (replicate 9 [Num 10; NaN]) ++ [Num 10; Num 10; Num 10]).

(** * The rest of the script *)

(** ** The scores of the players (lines 10, 19-35) *)

Definition players : nat := 2.

(** An element of [scores]. *)
Record score : Type := Score {
  name : string;
  throws : array
}.

(** The array a player starts with (lines 30-33): [NaN] in the slots
    [1 .. frames * 2 + 1], nothing in slot 0. *)
Definition blank_throws (frames : nat) : array :=
  foldl (fun input slot => <[slot := NaN]> input) ∅ (seq 1 (frames * 2 + 1)).

Definition resetScores (frames : nat) (scores : gmap nat score)
    : gmap nat score :=
  foldl
    (fun scores player =>
       <[player := Score ("Player " +:+ pretty player) (blank_throws frames)]>
         scores)
    scores (seq 1 players).

(** ** The score table (lines 38-165), as the data it shows *)

(** The [colspan] of the cell of frame [frame] (lines 129 and 154). *)
Definition colspan (frames frame : nat) : nat :=
  if (frame =? frames)%nat then 3%nat else 2%nat.

(** The header cells between "Player" and "Total" (lines 126-131):
    [colspan] and label. *)
Definition header (frames : nat) : list (nat * nat) :=
  map (fun frame => (colspan frames frame, frame)) (seq 1 frames).

(** What lines 134-164 write for a player: the name, the glyphs of the
    [td] of the throws, the [colspan] and content of the [td] of the
    frames, and the content of the total.  The name is the string line
    142 puts, as it is, into the HTML of the name cell: the browser
    parses it, so a name that holds markup is not shown as entered and
    can add cells of its own to the first row.  What the browser makes of
    the name is outside this model; [row_name] is the string handed to
    it, and [row_throws] and [row_frames] are the cells the script writes
    itself. *)
Record row : Type := Row {
  row_name : string;
  row_throws : list string;
  row_frames : list (nat * cell);
  row_total : cell
}.

(** Body of the loop of line 134 for the element [s] of [scores]:
    the element as [validate] leaves it, and its rows.  [None] stands for
    an exception that leaves [drawScoreTable]. *)
Definition draw_player (stack frames : nat) (strike : Z) (s : score)
    : option (score * row) :=
  let input := validate frames strike (throws s) in
  let glyphs :=
    map (throwString frames strike input) (seq 1 (frames * 2 + 1)) in
  match frameTotal stack frames strike input with
  | (input, Return subtotal) =>
      Some (Score (name s) input,
            Row (name s) glyphs
              (zip (map (colspan frames) (seq 1 frames))
                   (cumulative_row frames subtotal))
              (total_cell subtotal))
  | (_, Throw _) => None
  end.

(** Lines 134-164.  Reading a player that [scores] does not hold is a
    [TypeError], which nothing catches. *)
Definition drawScoreTable (stack frames : nat) (strike : Z)
    (scores : gmap nat score) : option (gmap nat score * list row) :=
  foldl
    (fun state player =>
       match state with
       | None => None
       | Some (scores, rows) =>
           match scores !! player with
           | None => None
           | Some s =>
               match draw_player stack frames strike s with
               | None => None
               | Some (s, r) => Some (<[player := s]> scores, rows ++ [r])
               end
           end
       end)
    (Some (scores, [])) (seq 1 players).

(** ** The input table (lines 169-224) *)

(** [tabindex] of the name field of a player (line 188). *)
Definition name_tabindex (player : nat) : nat := player.

(** [tabindex] of the field of a throw (line 196). *)
Definition throw_tabindex (throws player : nat) : nat :=
  (throws * players + player + 2)%nat.

(** What the listeners receive: a throw field left, with the player and
    the slot of its [dataset] and the [parseInt] of its value (lines
    216-221); a name field left (lines 206-210); the settings submitted
    (lines 230-235). *)
Inductive event : Type :=
  | ThrowBlur (player throwIndex : nat) (value : number)
  | NameBlur (player : nat) (value : string)
  | Submit.

(** A listener runs on [scores] with the frame count and the strike
    value the settings form holds at that time. *)
Definition handle (stack frames : nat) (strike : Z) (scores : gmap nat score)
    (e : event) : option (gmap nat score * list row) :=
  match e with
  | ThrowBlur player throwIndex value =>
      match scores !! player with
      | None => None
      | Some s =>
          drawScoreTable stack frames strike
            (<[player := Score (name s) (<[throwIndex := value]> (throws s))]>
               scores)
      end
  | NameBlur player value =>
      match scores !! player with
      | None => None
      | Some s =>
          drawScoreTable stack frames strike
            (<[player := Score value (throws s)]> scores)
      end
  | Submit => drawScoreTable stack frames strike (resetScores frames scores)
  end.

(** Lines 226-227: the script starts on an empty [scores]. *)
Definition start (stack frames : nat) (strike : Z)
    : option (gmap nat score * list row) :=
  handle stack frames strike ∅ Submit.

(** ** Vocabulary of the further statements *)

(** Slot [j] holds the first recorded throw after slot [p]. *)
Definition next_recorded (input : array) (p j : nat) : Prop :=
  (p < j)%nat /\ JS.isNaN (get input j) = false
  /\ forall i, (p < i < j)%nat -> get input i = NaN.

(** The array that holds [f i] in each slot [i] of [1 .. n]. *)
Definition throws_from (n : nat) (f : nat -> number) : array :=
  throws_of (map f (seq 1 n)).

(** A strike in every frame and in the two slots that end the array. *)
Definition perfect_game (frames : nat) (strike : Z) : array :=
  throws_from (frames * 2 + 1)
    (fun i =>
       if (i mod 2 =? 1)%nat || (frames * 2 <=? i)%nat then Num strike
       else NaN).

(** No pin in any throw. *)
Definition gutter_game (frames : nat) : array :=
  throws_from (frames * 2 + 1) (fun _ => Num 0).

(** Every subtotal is recorded. *)
Definition complete (subtotal : list number) : Prop :=
  Forall (fun v => JS.isNaN v = false) subtotal.


(** A game the rules allow, laid out in the slots [1 .. frames * 2 + 1]:
    every slot is there and a recorded throw is between 0 and the strike
    value; before the last frame a strike has no second throw and two
    throws sum to at most the strike value; the bonus slot is unrecorded
    when the last frame's two throws sum to less than the strike value. *)
Definition legal (frames : nat) (strike : Z) (input : array) : Prop :=
  (forall j, (1 <= j <= frames * 2 + 1)%nat ->
     exists v, input !! j = Some v /\ forall z, v = Num z -> 0 <= z <= strike)
  /\ (forall frame x, (1 <= frame < frames)%nat ->
        get input (frame * 2 - 1) = Num x ->
        (strike <= x -> get input (frame * 2) = NaN)
        /\ (forall y, get input (frame * 2) = Num y -> x + y <= strike))
  /\ (forall x y,
        get input (frames * 2 - 1) = Num x -> get input (frames * 2) = Num y ->
        x + y < strike -> get input (frames * 2 + 1) = NaN).

(** The string starts with the "&" of the blank glyph. *)
Definition starts_blank (s : string) : bool := String.prefix "&" s.

(** The element of [scores] after [validate] has run on its throws. *)
Definition validated_score (frames : nat) (strike : Z) (s : score) : score :=
  Score (name s) (validate frames strike (throws s)).

(** The rows of a player on whom nothing is recorded. *)
Definition blank_row (frames : nat) (name : string) : row :=
  Row name (replicate (frames * 2 + 1) "&nbsp;")
    (zip (map (colspan frames) (seq 1 frames)) (replicate frames Blank))
    Blank.


(** * Facts about the validator *)

(** [lia] on the parity tests [j mod 2]. *)
Local Ltac Zify.zify_post_hook ::= Z.to_euclidean_division_equations.

Lemma get_insert (input : array) (i j : nat) (v : number) :
  get (<[i := v]> input) j = if decide (i = j) then v else get input j.
Proof. unfold get. rewrite lookup_insert. by case_decide. Qed.

Section ValidatorFacts.

Variable frames : nat.
Variable strike : Z.

Lemma clamp_slot_lookup (input : array) (throws j : nat) :
  clamp_slot strike input throws !! j =
    if decide (j = throws) then clamp_value strike <$> input !! j
    else input !! j.
Proof.
  unfold clamp_slot, get.
  case_decide as Hj.
  - subst j. destruct (input !! throws) as [[z|]|] eqn:E; simpl;
      repeat (case_match; simplify_map_eq; simpl in * ); try done; try lia.
  - repeat case_match; by rewrite ?lookup_insert_ne.
Qed.

Lemma clamp_range_lookup (input : array) (start len j : nat) :
  foldl (clamp_slot strike) input (seq start len) !! j =
    if decide (start <= j < start + len)%nat
    then clamp_value strike <$> input !! j
    else input !! j.
Proof.
  revert input start. induction len as [|len IH]; intros input start; simpl.
  - case_decide; [lia | done].
  - rewrite IH, clamp_slot_lookup.
    repeat case_decide; try done; lia.
Qed.

Lemma clamp_pass_lookup (input : array) (j : nat) :
  clamp_pass frames strike input !! j =
    if decide (1 <= j <= frames * 2 + 1)%nat
    then clamp_value strike <$> input !! j
    else input !! j.
Proof.
  unfold clamp_pass. rewrite clamp_range_lookup.
  repeat case_decide; try done; lia.
Qed.

Lemma repair_pair_lookup (input : array) (frame j : nat) :
  (1 <= frame)%nat ->
  repair_pair strike input frame !! j =
    if decide (j = frame * 2)%nat
    then repaired strike (get input (frame * 2 - 1)) (input !! j)
    else input !! j.
Proof.
  intros Hframe. unfold repair_pair, repaired.
  assert (get input (frame * 2) = default NaN (input !! (frame * 2)%nat))
    as Hsecond by done.
  destruct (JS.gt _ _) eqn:Hgt; rewrite ?get_insert;
    repeat case_decide; try lia; subst;
    destruct (JS.ge _ _) eqn:Hge;
    rewrite ?lookup_insert_eq, ?lookup_insert_ne by done;
    rewrite <- ?Hsecond, ?Hgt; done.
Qed.

Lemma repair_range_lookup (input : array) (n j : nat) :
  foldl (repair_pair strike) input (seq 1 n) !! j =
    repaired_lookup strike n (fun i => input !! i) j.
Proof.
  revert j. induction n as [|n IH]; intros j.
  - unfold repaired_lookup. simpl. case_decide; [lia | done].
  - rewrite seq_S, foldl_snoc, repair_pair_lookup by lia.
    replace (1 + n)%nat with (S n) by lia.
    unfold get. rewrite !IH. unfold repaired_lookup.
    repeat case_decide; try lia; subst; done.
Qed.

Lemma repair_loop_prefix (input : array) (l l' : list nat) :
  Forall (fun g => g ≠ frames) l ->
  for_loop (repair_frame frames strike) input (l ++ l') =
    for_loop (repair_frame frames strike)
      (foldl (repair_pair strike) input l) l'.
Proof.
  intros Hl. revert input.
  induction Hl as [|g l Hg _ IH]; intros input; simpl; [done|].
  unfold repair_frame at 1.
  apply Nat.eqb_neq in Hg. rewrite Hg. apply IH.
Qed.

Lemma repair_pass_lookup (input : array) (j : nat) :
  repair_pass frames strike input !! j =
    validated_lookup frames strike (fun i => input !! i) j.
Proof.
  unfold repair_pass, validated_lookup.
  case_decide as Hframes; [by rewrite Hframes|].
  set (n := (frames - 1)%nat).
  replace (seq 1 frames) with (seq 1 n ++ [frames])
    by (replace frames with (S n) by lia; by rewrite seq_S).
  rewrite repair_loop_prefix
    by (apply Forall_forall; intros g Hg%elem_of_seq; lia).
  simpl. unfold repair_frame. rewrite Nat.eqb_refl.
  set (input' := foldl (repair_pair strike) input (seq 1 n)).
  assert (forall i, (2 * n < i)%nat -> input' !! i = input !! i) as Hlast.
  { intros i Hi. unfold input'. rewrite repair_range_lookup.
    unfold repaired_lookup. case_decide; [lia | done]. }
  unfold get. rewrite !Hlast by lia.
  destruct (JS.lt _ _) eqn:Hlt.
  - rewrite repair_pair_lookup by lia.
    unfold get. rewrite !lookup_insert.
    unfold repaired_lookup.
    repeat case_decide; try lia; rewrite ?Hlast by lia; try done.
    + by subst j.
    + unfold input'. rewrite repair_range_lookup. unfold repaired_lookup.
      case_decide; [done | lia].
    + unfold input'. rewrite repair_range_lookup. unfold repaired_lookup.
      case_decide; [lia | done].
  - unfold input'. apply repair_range_lookup.
Qed.

Lemma validated_lookup_ext (c c' : nat -> option number) (j : nat) :
  (forall i, c i = c' i) ->
  validated_lookup frames strike c j = validated_lookup frames strike c' j.
Proof.
  intros H. unfold validated_lookup, repaired_lookup. by rewrite !H.
Qed.

Lemma validate_lookup (input : array) (j : nat) :
  validate frames strike input !! j =
    validated_lookup frames strike
      (clamped_lookup frames strike (fun i => input !! i)) j.
Proof.
  unfold validate. rewrite repair_pass_lookup.
  apply validated_lookup_ext. intros i. apply clamp_pass_lookup.
Qed.

(** *** Values the first loop leaves alone *)

Lemma clamp_value_fixed (z : Z) :
  clamp_value strike (Num z) = Num z <->
    0 <= z <= strike \/ (strike < 0 /\ z = strike).
Proof.
  simpl. destruct (z <? 0) eqn:E1; [apply Z.ltb_lt in E1|apply Z.ltb_ge in E1];
    (destruct (strike <? _) eqn:E2;
      [apply Z.ltb_lt in E2|apply Z.ltb_ge in E2]);
    split; intros H; try injection H as H; try f_equal; lia.
Qed.

Lemma clamp_value_idem (v : number) :
  clamp_value strike (clamp_value strike v) = clamp_value strike v.
Proof.
  destruct v as [z|]; [|done]. apply clamp_value_fixed. simpl.
  destruct (z <? 0) eqn:E1; [apply Z.ltb_lt in E1|apply Z.ltb_ge in E1];
    (destruct (strike <? _) eqn:E2;
      [apply Z.ltb_lt in E2|apply Z.ltb_ge in E2]); lia.
Qed.

Lemma clamped_lookup_clamped (g : nat -> option number) :
  clamped frames strike (clamped_lookup frames strike g).
Proof.
  intros i Hi. unfold clamped_lookup. case_decide; [|lia].
  destruct (g i) as [v|]; [|done]. simpl. by rewrite clamp_value_idem.
Qed.

Lemma clamped_lookup_id (c : nat -> option number) (i : nat) :
  clamped frames strike c -> clamped_lookup frames strike c i = c i.
Proof. intros Hc. unfold clamped_lookup. case_decide; auto. Qed.

Lemma repaired_clamped (first : number) (second : option number) :
  clamp_value strike first = first ->
  clamp_value strike <$> second = second ->
  clamp_value strike <$> repaired strike first second
    = repaired strike first second.
Proof.
  intros Hfirst Hsecond. unfold repaired.
  destruct (JS.ge first (Num strike)) eqn:Hge; [done|].
  destruct (JS.gt _ _) eqn:Hgt; [|done].
  destruct first as [x|]; [|done].
  destruct second as [[y|]|]; try done.
  change (Some (clamp_value strike (Num y)) = Some (Num y)) in Hsecond.
  apply (inj Some) in Hsecond.
  apply clamp_value_fixed in Hfirst, Hsecond.
  change (Some (clamp_value strike (Num (strike - x)))
          = Some (Num (strike - x))).
  f_equal. apply clamp_value_fixed.
  simpl in Hge, Hgt. apply Z.leb_gt in Hge. apply Z.ltb_lt in Hgt. lia.
Qed.

Lemma clamped_default (c : nat -> option number) (i : nat) :
  clamped frames strike c -> (1 <= i <= frames * 2 + 1)%nat ->
  clamp_value strike (default NaN (c i)) = default NaN (c i).
Proof.
  intros Hc Hi. specialize (Hc i Hi).
  destruct (c i); simpl in *; [congruence | done].
Qed.

Lemma repaired_lookup_clamped (n : nat) (c : nat -> option number) :
  (n <= frames)%nat -> clamped frames strike c ->
  clamped frames strike (repaired_lookup strike n c).
Proof.
  intros Hn Hc i Hi. unfold repaired_lookup.
  case_decide; [|by apply Hc].
  apply repaired_clamped; [apply clamped_default; [done | lia] | by apply Hc].
Qed.

Lemma validated_lookup_clamped (c : nat -> option number) :
  clamped frames strike c ->
  clamped frames strike (validated_lookup frames strike c).
Proof.
  intros Hc i Hi. unfold validated_lookup.
  case_decide; [by apply Hc|].
  destruct (JS.lt _ _).
  - case_decide; [done|]. by apply repaired_lookup_clamped.
  - apply repaired_lookup_clamped; [lia | done | lia].
Qed.

(** *** Running lines 58-60 again changes nothing *)

Lemma repaired_idem (first : number) (second : option number) :
  repaired strike first (repaired strike first second)
    = repaired strike first second.
Proof.
  unfold repaired.
  destruct (JS.ge first (Num strike)) eqn:Hge; [by rewrite ?Hge|].
  destruct (JS.gt (JS.add first (default NaN second)) _) eqn:Hgt;
    simpl; rewrite ?Hgt; [|done].
  destruct first as [x|]; [|done]. simpl.
  replace (strike <? x + (strike - x)) with false; [done|].
  symmetry. apply Z.ltb_ge. lia.
Qed.

Lemma repaired_lookup_first (n : nat) (c : nat -> option number) (j : nat) :
  (j mod 2 = 1)%nat -> repaired_lookup strike n c j = c j.
Proof. intros Hj. unfold repaired_lookup. case_decide; [lia | done]. Qed.

Lemma repaired_lookup_beyond (n : nat) (c : nat -> option number) (j : nat) :
  (2 * n < j)%nat -> repaired_lookup strike n c j = c j.
Proof. intros Hj. unfold repaired_lookup. case_decide; [lia | done]. Qed.

Lemma repaired_lookup_again (n m : nat) (c c' : nat -> option number)
    (j : nat) :
  (n <= m)%nat ->
  c' j = repaired_lookup strike m c j ->
  c' (j - 1)%nat = repaired_lookup strike m c (j - 1)%nat ->
  repaired_lookup strike n c' j = repaired_lookup strike m c j.
Proof.
  intros Hn Hj Hj'. unfold repaired_lookup at 1.
  case_decide as Heven; [|done].
  rewrite Hj, Hj'. rewrite (repaired_lookup_first m c (j - 1)) by lia.
  unfold repaired_lookup. case_decide; [|lia]. apply repaired_idem.
Qed.

Lemma validated_lookup_idem (c : nat -> option number) (j : nat) :
  validated_lookup frames strike (validated_lookup frames strike c) j
    = validated_lookup frames strike c j.
Proof.
  unfold validated_lookup at 1.
  case_decide as Hframes; [unfold validated_lookup; by case_decide|].
  assert (validated_lookup frames strike c (frames * 2 - 1)%nat
          = c (frames * 2 - 1)%nat)
    as Hfirst.
  { unfold validated_lookup. case_decide; [done|].
    destruct (JS.lt _ _); [case_decide; [lia|]|];
      apply repaired_lookup_first; lia. }
  rewrite Hfirst.
  destruct (JS.lt (JS.add (default NaN (c (frames * 2 - 1)%nat))
                          (default NaN (c (frames * 2)%nat)))
                  (Num strike)) eqn:Hbelow.
  - assert (forall i, i ≠ (frames * 2 + 1)%nat ->
              validated_lookup frames strike c i
              = repaired_lookup strike frames c i) as Hc.
    { intros i Hi. unfold validated_lookup.
      case_decide; [done|]. rewrite Hbelow. by case_decide. }
    assert (validated_lookup frames strike c (frames * 2 + 1)%nat = Some NaN)
      as Hbonus.
    { unfold validated_lookup.
      case_decide; [done|]. rewrite Hbelow. by case_decide. }
    destruct (decide (j = frames * 2 + 1)%nat) as [->|Hj].
    + rewrite Hbonus.
      destruct (JS.lt (JS.add _ (default NaN (validated_lookup _ _ c _))) _);
        repeat case_decide; try done.
      rewrite repaired_lookup_beyond by lia. done.
    + destruct (decide (j = frames * 2 + 2)%nat) as [->|Hj'].
      * destruct (JS.lt (JS.add _ (default NaN (validated_lookup _ _ c _))) _);
          repeat case_decide; try lia;
          rewrite repaired_lookup_beyond by lia; done.
      * rewrite (Hc j) by done.
        destruct (JS.lt (JS.add _ (default NaN (validated_lookup _ _ c _))) _);
          repeat case_decide; try lia;
          apply repaired_lookup_again; try lia; apply Hc; lia.
  - assert (forall i, validated_lookup frames strike c i
                      = repaired_lookup strike (frames - 1) c i) as Hc.
    { intros i. unfold validated_lookup.
      case_decide; [done|]. by rewrite Hbelow. }
    rewrite (Hc (frames * 2)%nat), repaired_lookup_beyond, Hbelow by lia.
    rewrite (Hc j). apply repaired_lookup_again; [lia | apply Hc ..].
Qed.

End ValidatorFacts.

(** * The claims about the validator *)

(** C7. The validator is idempotent: validating a validated array leaves
    it as it is, for every array, frame count and strike value. *)
Theorem validate_idempotent (frames : nat) (strike : Z) (input : array) :
  validate frames strike (validate frames strike input)
    = validate frames strike input.
Proof.
  apply map_eq. intros j.
  rewrite (validate_lookup frames strike (validate _ _ _)).
  set (c := clamped_lookup frames strike (fun i => input !! i)).
  assert (forall i, validate frames strike input !! i
                    = validated_lookup frames strike c i) as Hv
    by (intros i; apply validate_lookup).
  rewrite Hv.
  rewrite (validated_lookup_ext frames strike _
             (validated_lookup frames strike c)).
  - apply validated_lookup_idem.
  - intros i.
    rewrite <- (clamped_lookup_id frames strike
                  (validated_lookup frames strike c) i)
      by apply validated_lookup_clamped, clamped_lookup_clamped.
    unfold clamped_lookup. case_decide; by rewrite ?Hv.
Qed.

(** C9. With a positive strike value, every slot [1 .. frames * 2 + 1]
    of the validated array that holds a recorded value [v] has
    [0 <= v <= strike]. *)
Theorem validate_clamp_invariant (frames : nat) (strike : Z) (input : array)
    (j : nat) (v : Z) :
  0 < strike ->
  (1 <= j <= frames * 2 + 1)%nat ->
  validate frames strike input !! j = Some (Num v) ->
  0 <= v <= strike.
Proof.
  intros Hstrike Hj Hv. rewrite validate_lookup in Hv.
  pose proof (validated_lookup_clamped frames strike _
                (clamped_lookup_clamped frames strike (fun i => input !! i))
                j Hj) as Hfixed.
  rewrite Hv in Hfixed.
  change (Some (clamp_value strike (Num v)) = Some (Num v)) in Hfixed.
  apply (inj Some), clamp_value_fixed in Hfixed. lia.
Qed.

Lemma validate_clamp_invariant_witness :
  validate 1 10 (throws_of [Num 12; Num (-5); Num 7]) !! 1%nat = Some (Num 10)
  /\ 0 <= 10 <= 10.
Proof.
  split; [reflexivity|].
  apply (validate_clamp_invariant 1 10
           (throws_of [Num 12; Num (-5); Num 7]) 1 10);
    [lia | lia | reflexivity].
Defined.

Lemma below_strike_lt (strike : Z) (first second : number) :
  below_strike strike first second <->
    JS.lt (JS.add first second) (Num strike) = true.
Proof.
  split.
  - intros (x & y & -> & -> & H). by apply Z.ltb_lt.
  - destruct first as [x|], second as [y|]; try done.
    intros H%Z.ltb_lt. by exists x, y.
Qed.

Lemma get_clamp_pass (frames : nat) (strike : Z) (input : array) (j : nat) :
  (1 <= j <= frames * 2 + 1)%nat ->
  get (clamp_pass frames strike input) j = clamp_value strike (get input j).
Proof.
  intros Hj. unfold get. rewrite clamp_pass_lookup. case_decide; [|lia].
  by destruct (input !! j).
Qed.

(** C8. With at least one frame, the validator decides the bonus slot
    [frames * 2 + 1] on the last frame's two throws as the first loop
    leaves them: when both are recorded and sum to less than the strike
    value the bonus slot becomes [NaN] whatever it held, otherwise it is
    left as entered, clamped.  Recorded throws that are not negative are
    untouched by the first loop when they sum to less than the strike
    value, so the first case then reads on the throws as entered. *)
Theorem validate_bonus_slot (frames : nat) (strike : Z) (input : array) :
  (1 <= frames)%nat ->
  let validated := validate frames strike input in
  let first := clamp_value strike (get input (frames * 2 - 1)) in
  let second := clamp_value strike (get input (frames * 2)) in
  (below_strike strike first second ->
     validated !! (frames * 2 + 1)%nat = Some NaN)
  /\ (~ below_strike strike first second ->
        validated !! (frames * 2 + 1)%nat
          = clamp_value strike <$> input !! (frames * 2 + 1)%nat)
  /\ (forall x y,
        get input (frames * 2 - 1) = Num x -> get input (frames * 2) = Num y ->
        0 <= x -> 0 <= y -> x + y < strike ->
        validated !! (frames * 2 + 1)%nat = Some NaN).
Proof.
  intros Hframes validated first second.
  assert (forall i, validated !! i
            = validated_lookup frames strike
                (fun i => clamp_pass frames strike input !! i) i) as Hv.
  { intros i. unfold validated. rewrite validate_lookup.
    apply validated_lookup_ext. intros k. symmetry. apply clamp_pass_lookup. }
  assert (below_strike strike first second ->
          validated !! (frames * 2 + 1)%nat = Some NaN) as Hbelow.
  { intros H%below_strike_lt. rewrite Hv. unfold validated_lookup.
    case_decide; [lia|].
    change (default NaN (clamp_pass frames strike input !! ?i))
      with (get (clamp_pass frames strike input) i).
    rewrite !get_clamp_pass by lia. fold first second. rewrite H.
    by case_decide. }
  split; [done|]. split.
  - intros H. rewrite Hv. unfold validated_lookup.
    case_decide; [lia|].
    change (default NaN (clamp_pass frames strike input !! ?i))
      with (get (clamp_pass frames strike input) i).
    rewrite !get_clamp_pass by lia. fold first second.
    destruct (JS.lt _ _) eqn:Hlt; [by apply below_strike_lt in Hlt|].
    rewrite repaired_lookup_beyond by lia.
    rewrite clamp_pass_lookup. case_decide; [done | lia].
  - intros x y Hx Hy Hx0 Hy0 Hsum. apply Hbelow.
    exists x, y. unfold first, second. rewrite Hx, Hy.
    repeat split; try done; apply clamp_value_fixed; lia.
Qed.

Lemma validate_bonus_slot_witness :
  validate 10 10 (throws_of (replicate 18 NaN ++ [Num 3; Num 4; Num 9]))
    !! 21%nat = Some NaN.
Proof.
  apply (validate_bonus_slot 10 10
           (throws_of (replicate 18 NaN ++ [Num 3; Num 4; Num 9])));
    [lia|].
  exists 3, 4. repeat split; reflexivity.
Defined.

Lemma repaired_rule (strike : Z) (first : number) (second : option number) :
  let second' := default NaN (repaired strike first second) in
  (forall x, first = Num x -> strike <= x -> second' = NaN)
  /\ (forall x y, first = Num x -> x < strike ->
        default NaN second = Num y -> strike < x + y ->
        second' = Num (strike - x))
  /\ (forall x y, first = Num x -> x < strike -> second' = Num y ->
        x + y <= strike).
Proof.
  unfold repaired. repeat split.
  - intros x -> Hx. simpl.
    by replace (strike <=? x) with true by (symmetry; apply Z.leb_le; lia).
  - intros x y -> Hx -> Hsum. simpl.
    replace (strike <=? x) with false by (symmetry; apply Z.leb_gt; lia).
    by replace (strike <? x + y) with true by (symmetry; apply Z.ltb_lt; lia).
  - intros x y -> Hx. simpl.
    replace (strike <=? x) with false by (symmetry; apply Z.leb_gt; lia).
    destruct second as [[b|]|]; simpl; try (intros; discriminate).
    destruct (strike <? x + b) eqn:Hsum; simpl; intros [= <-];
      [lia | by apply Z.ltb_ge in Hsum].
Qed.

(** C2, as stated, fails on the last frame: ten pins twice in the only
    frame of a one-frame game stay as they are, the second loop leaving at
    line 56. *)
Lemma repair_rule_last_frame_counterexample :
  let input := throws_of [Num 10; Num 10; NaN] in
  get (validate 1 10 input) 1 = Num 10
  /\ get (validate 1 10 input) 2 = Num 10
  /\ ~ repair_rule 10 (clamp_pass 1 10 input) (validate 1 10 input) 1.
Proof.
  intros input. split; [reflexivity|]. split; [reflexivity|].
  intros (Hstrike & _). specialize (Hstrike 10 eq_refl).
  assert (get (validate 1 10 input) (1 * 2) = Num 10) as H by reflexivity.
  rewrite H in Hstrike. discriminate Hstrike. lia.
Qed.

(** C2, amended.  The repair rule holds at every frame before the last,
    for every array, frame count and strike value; on the last frame,
    with a strike value that is not negative, a first throw at or above
    the strike value leaves the second slot as the first loop left it. *)
Theorem validate_repair_rule (frames : nat) (strike : Z) (input : array) :
  (forall frame, (1 <= frame < frames)%nat ->
     repair_rule strike (clamp_pass frames strike input)
       (validate frames strike input) frame)
  /\ (forall x, 0 <= strike -> (1 <= frames)%nat ->
        get (validate frames strike input) (frames * 2 - 1) = Num x ->
        strike <= x ->
        validate frames strike input !! (frames * 2)%nat
          = clamp_pass frames strike input !! (frames * 2)%nat).
Proof.
  set (c := fun i => clamp_pass frames strike input !! i).
  assert (forall i, validate frames strike input !! i
            = validated_lookup frames strike c i) as Hv.
  { intros i. rewrite validate_lookup.
    apply validated_lookup_ext. intros k. symmetry. apply clamp_pass_lookup. }
  assert (forall i, (i mod 2 = 1)%nat -> (i < frames * 2)%nat ->
            validate frames strike input !! i = c i) as Hodd.
  { intros i Hi Hlt. rewrite Hv. unfold validated_lookup.
    case_decide; [done|].
    destruct (JS.lt _ _); [case_decide; [lia|]|];
      by apply repaired_lookup_first. }
  split.
  - intros frame Hframe.
    assert (validate frames strike input !! (frame * 2)%nat
              = repaired strike (get (clamp_pass frames strike input)
                                   (frame * 2 - 1))
                  (c (frame * 2)%nat)) as Hsecond.
    { rewrite Hv. unfold validated_lookup. case_decide; [lia|].
      destruct (JS.lt _ _); [case_decide; [lia|]|];
        unfold repaired_lookup; (case_decide; [|lia]); done. }
    unfold repair_rule, get. rewrite Hodd, Hsecond by lia.
    apply repaired_rule.
  - intros x Hstrike Hframes Hx Hge.
    unfold get in Hx. rewrite Hodd in Hx by lia.
    rewrite Hv. unfold validated_lookup. case_decide; [lia|].
    destruct (JS.lt _ _) eqn:Hlt; [|by apply repaired_lookup_beyond; lia].
    exfalso. apply below_strike_lt in Hlt as (a & b & Ha & Hb & Hsum).
    unfold c in Hx, Ha, Hb.
    destruct (clamp_pass frames strike input !! (frames * 2 - 1)%nat)
      as [v|] eqn:E1; simpl in *; [subst v|done]. injection Ha as <-.
    pose proof (clamp_pass_lookup frames strike input (frames * 2)) as E2.
    case_decide; [|lia].
    destruct (clamp_pass frames strike input !! (frames * 2)%nat)
      as [v|]; simpl in *; [subst v|done].
    destruct (input !! (frames * 2)%nat) as [[z|]|]; try done.
    change (Some (Num b) = Some (clamp_value strike (Num z))) in E2.
    apply (inj Some) in E2.
    assert (clamp_value strike (Num b) = Num b) as Hfixed
      by (rewrite E2; apply clamp_value_idem).
    apply clamp_value_fixed in Hfixed. lia.
Qed.

Lemma validate_repair_rule_witness :
  let input := throws_of [Num 12; Num 4; Num 11; Num 8; Num 3] in
  repair_rule 10 (clamp_pass 2 10 input) (validate 2 10 input) 1
  /\ validate 2 10 input !! 4%nat = clamp_pass 2 10 input !! 4%nat.
Proof.
  intros input. split.
  - apply (validate_repair_rule 2 10 input). lia.
  - apply (proj2 (validate_repair_rule 2 10 input) 10);
      [lia | lia | reflexivity | lia].
Defined.

(** * Facts about the frame scorer *)

Section FrameScorerFacts.

Variable stack : nat.
Variable frames : nat.
Variable strike : Z.

Lemma next_at_outcome (depth throws : nat) (h : heap) :
  next_at frames depth throws h
    = (h, next_outcome frames (input_array h) depth throws).
Proof.
  revert throws. induction depth as [|depth IH]; intros throws; [done|].
  simpl. unfold mbind, M_bind, read.
  destruct (JS.isNaN _); [apply IH|].
  by destruct (_ <? _)%nat.
Qed.

Lemma frame_body_push (throws : nat) (h : heap) :
  frame_body stack frames strike throws h
    = (Heap (input_array h)
         (result_array h
            ++ [frame_score stack frames strike (input_array h) throws]),
       Return ()).
Proof.
  unfold frame_body, frame_score, try_catch, next, mbind, M_bind, read, push.
  cbv beta.
  destruct (JS.ge (get (input_array h) throws) _).
  - rewrite !next_at_outcome.
    destruct (next_outcome _ _ _ throws) as [i|]; [|done].
    rewrite !next_at_outcome.
    by destruct (next_outcome _ _ _ i).
  - destruct (JS.ge _ _).
    + rewrite !next_at_outcome.
      destruct (next_outcome _ _ _ throws) as [j|]; [|done].
      rewrite !next_at_outcome.
      by destruct (next_outcome _ _ _ j).
    + by destruct (_ || _).
Qed.

Lemma for_each_frame_body (slots : list nat) (h : heap) :
  for_each (frame_body stack frames strike) slots h
    = (Heap (input_array h)
         (result_array h
            ++ map (frame_score stack frames strike (input_array h)) slots),
       Return ()).
Proof.
  revert h. induction slots as [|t slots IH]; intros h; simpl.
  - rewrite app_nil_r. by destruct h.
  - unfold mbind, M_bind. rewrite frame_body_push, IH. simpl.
    by rewrite <- app_assoc.
Qed.

Lemma frameTotal_scores (input : array) :
  frameTotal stack frames strike input
    = (input,
       Return (map (frame_score stack frames strike input)
                 (first_slots frames))).
Proof. unfold frameTotal. by rewrite for_each_frame_body. Qed.

Lemma next_outcome_exhausted (input : array) (depth p : nat) :
  exhausted input p -> next_outcome frames input depth p = Throw RangeError.
Proof.
  revert p. induction depth as [|depth IH]; intros p Hp; [done|].
  simpl. rewrite (Hp (p + 1)%nat) by lia. simpl.
  apply IH. intros i Hi. apply Hp. lia.
Qed.

(** [next] skips exactly the unrecorded slots. *)
Lemma next_outcome_return (input : array) (depth p j : nat) :
  next_outcome frames input depth p = Return j ->
  (p < j)%nat /\ JS.isNaN (get input j) = false
  /\ forall i, (p < i < j)%nat -> get input i = NaN.
Proof.
  revert p. induction depth as [|depth IH]; intros p; [done|].
  simpl. destruct (JS.isNaN (get input (p + 1))) eqn:Hnan.
  - intros (Hlt & Hj & Hskip)%IH. repeat split; [lia | done |].
    intros i Hi. destruct (decide (i = p + 1)%nat) as [->|].
    + by destruct (get input (p + 1)).
    + apply Hskip. lia.
  - destruct (_ <? _)%nat; [done|]. intros [= <-].
    repeat split; [lia | done | intros i Hi; lia].
Qed.

Lemma next_outcome_mono (input : array) (depth depth' p j : nat) :
  (depth <= depth')%nat ->
  next_outcome frames input depth p = Return j ->
  next_outcome frames input depth' p = Return j.
Proof.
  revert depth' p. induction depth as [|depth IH]; intros depth' p Hle; [done|].
  destruct depth' as [|depth']; [lia|]. simpl.
  destruct (JS.isNaN _); [apply IH; lia | done].
Qed.

(** The test of line 94 never fires on an array that holds nothing
    after slot [frames * 2 + 1]. *)
Lemma next_outcome_no_error (input : array) (depth p : nat) (message : string) :
  exhausted input (frames * 2 + 1) ->
  next_outcome frames input depth p ≠ Throw (Error message).
Proof.
  intros Hend. revert p. induction depth as [|depth IH]; intros p; [done|].
  simpl. destruct (JS.isNaN (get input (p + 1))) eqn:Hnan; [apply IH|].
  destruct (_ <? _)%nat eqn:Hlt; [|done].
  apply Nat.ltb_lt in Hlt. rewrite (Hend (p + 1)%nat) in Hnan by lia. done.
Qed.


Lemma frame_score_spare_exhausted (input : array) (t : nat) :
  JS.ge (get input t) (Num strike) = false ->
  JS.ge (JS.add (get input (t + 1)) (get input t)) (Num strike) = true ->
  exhausted input (t + 1) ->
  frame_score stack frames strike input t = NaN.
Proof.
  intros Hstrike Hspare Hpast. unfold frame_score. rewrite Hstrike, Hspare.
  destruct (next_outcome frames input stack t) as [i|] eqn:Hnext; [|done].
  apply next_outcome_return in Hnext as (Hlt & _).
  rewrite next_outcome_exhausted; [done|].
  intros k Hk. apply Hpast. lia.
Qed.

Lemma first_slots_lookup (k : nat) :
  (k < frames)%nat -> first_slots frames !! k = Some (2 * k + 1)%nat.
Proof.
  intros Hk. unfold first_slots.
  rewrite list_lookup_fmap, lookup_seq_lt by done. done.
Qed.

End FrameScorerFacts.

Lemma exhausted_throws_of (l : list number) (p : nat) :
  (forall i, (p <= i)%nat -> default NaN (l !! i) = NaN) ->
  exhausted (throws_of l) p.
Proof.
  intros Hl i Hi. unfold get, throws_of.
  destruct (list_to_map _ !! i) as [v|] eqn:Hv; [|done]. simpl.
  apply elem_of_list_to_map_2, elem_of_lookup_zip_with in Hv
    as (k & i' & v' & [= <- <-] & Hk & Hv).
  apply lookup_seq in Hk as [-> _].
  specialize (Hl k). rewrite Hv in Hl. apply Hl. lia.
Qed.

(** [next] without a bound on the stack. *)


(** Where the bounded stack does not overflow, [next_at] ends as
    [next_eval] does; and every outcome of [next_eval] is that of
    [next_at] on a stack with room enough. *)
Lemma next_outcome_eval (frames : nat) (input : array) (stack p : nat)
    (r : outcome nat) :
  next_outcome frames input stack p = r -> r ≠ Throw RangeError ->
  next_eval frames input p r.
Proof.
  revert p. induction stack as [|stack IH]; intros p; simpl.
  - by intros <-.
  - destruct (JS.isNaN (get input (p + 1))) eqn:Hnan.
    + intros Hr Hne. apply next_eval_skip; [done|]. by apply IH.
    + destruct (frames * 2 + 1 <? p)%nat eqn:Hlt; intros <- _.
      * apply next_eval_throw; [done|]. by apply Nat.ltb_lt.
      * apply next_eval_return; [done|]. by apply Nat.ltb_ge.
Qed.

Lemma next_eval_outcome (frames : nat) (input : array) (p : nat)
    (r : outcome nat) :
  next_eval frames input p r ->
  exists stack, next_outcome frames input stack p = r.
Proof.
  intros Heval.
  induction Heval as [p r Hnan _ [stack IH]|p Hnan Hlt|p Hnan Hle].
  - exists (S stack). simpl. by rewrite Hnan.
  - exists 1%nat. simpl. rewrite Hnan.
    by replace (frames * 2 + 1 <? p)%nat with true
      by (symmetry; by apply Nat.ltb_lt).
  - exists 1%nat. simpl. rewrite Hnan.
    by replace (frames * 2 + 1 <? p)%nat with false
      by (symmetry; by apply Nat.ltb_ge).
Qed.

(** * The claims about the frame scorer *)

(** C4.  The recursion of [next] is not bounded by the length of the
    array.  In a one-frame game with a strike and nothing recorded after
    it, [next(1)] started in bounds uses up every activation record it is
    given, however many: the call ends with the engine's [RangeError],
    never with the [Error] of line 94 nor with a result. *)
Theorem next_recursion_unbounded (stack : nat) :
  let input := throws_of [Num 10; NaN; NaN] in
  next stack 1 1 (Heap input []) = (Heap input [], Throw RangeError).
Proof.
  intros input. unfold next. rewrite next_at_outcome. f_equal.
  apply next_outcome_exhausted, exhausted_throws_of. intros i Hi.
  destruct i as [|[|[|i]]]; try lia; reflexivity.
Qed.


(** C10.  [frameTotal] leaves its argument as it found it: the array it
    was given is, slot for slot, the same when it finishes. *)
Theorem frameTotal_input_unchanged (stack frames : nat) (strike : Z)
    (input : array) :
  fst (frameTotal stack frames strike input) = input.
Proof. by rewrite frameTotal_scores. Qed.

(** C6.  Ten frames, strike value ten, a strike in every frame and two
    more in the last: with room on the stack for the two nested calls a
    lookahead over one unrecorded slot makes, [frameTotal] returns thirty
    for each of the ten frames, and the total is three hundred.  The
    validator leaves this array as it is. *)
Theorem all_strikes_score (stack : nat) :
  (2 <= stack)%nat ->
  validate 10 10 all_strikes = all_strikes
  /\ frameTotal stack 10 10 all_strikes
       = (all_strikes, Return (replicate 10 (Num 30)))
  /\ total (replicate 10 (Num 30)) = Num 300
  /\ total_cell (replicate 10 (Num 30)) = Shown (Num 300).
Proof.
  intros Hstack. split; [by vm_compute|]. split; [|by split].
  rewrite frameTotal_scores. f_equal. f_equal.
  assert (forall t j, next_outcome 10 all_strikes 2 t = Return j ->
                      next_outcome 10 all_strikes stack t = Return j) as Hnext
    by (intros t j; by apply next_outcome_mono).
  assert (forall t i j,
            get all_strikes t = Num 10 ->
            next_outcome 10 all_strikes 2 t = Return i ->
            next_outcome 10 all_strikes 2 i = Return j ->
            get all_strikes i = Num 10 -> get all_strikes j = Num 10 ->
            frame_score stack 10 10 all_strikes t = Num 30) as Hscore.
  { intros t i j Ht Hi Hj Hvi Hvj. unfold frame_score.
    rewrite Ht, (Hnext _ _ Hi), (Hnext _ _ Hj), Hvi, Hvj. reflexivity. }
  unfold first_slots. simpl.
  repeat (f_equal; [eapply Hscore; by vm_compute|]).
  f_equal. eapply Hscore; by vm_compute.
Qed.

Lemma all_strikes_score_witness :
  frameTotal 2 10 10 all_strikes
    = (all_strikes, Return (replicate 10 (Num 30))).
Proof. apply (all_strikes_score 2). lia. Defined.

(** * The claims about the frame row *)

Lemma recorded_sum_app (l k : list number) :
  recorded_sum (l ++ k) = recorded_sum l + recorded_sum k.
Proof. induction l as [|[z|] l IH]; simpl; lia. Qed.

Lemma cumulative_loop (subtotal : list number) (n : nat) :
  (n <= length subtotal)%nat ->
  foldl (cumulative_cell subtotal) (Num 0, []) (seq 1 n)
    = (Num (recorded_sum (take n subtotal)),
       map (cumulative_cell_of subtotal) (seq 0 n)).
Proof.
  induction n as [|n IH]; intros Hn; [done|].
  rewrite !seq_S, foldl_snoc, IH, map_app by lia. simpl.
  replace (n - 0)%nat with n by lia.
  destruct (lookup_lt_is_Some_2 subtotal n ltac:(lia)) as [v Hv].
  rewrite (take_S_r _ _ _ Hv), recorded_sum_app.
  unfold cumulative_cell_of, at_index. rewrite Hv.
  rewrite (take_S_r _ _ _ Hv), recorded_sum_app.
  destruct v as [z|]; simpl; [|by rewrite Z.add_0_r].
  by replace (recorded_sum (take n subtotal) + (z + 0))
       with (recorded_sum (take n subtotal) + z) by lia.
Qed.

(** C1, as stated, fails: with nothing recorded in the first of two
    frames and 3 and 4 in the second, the validated throws score
    [NaN; 7], and the cell of the second frame shows 7. *)
Lemma short_circuit_counterexample :
  let input := throws_of [NaN; NaN; Num 3; Num 4; NaN] in
  validate 2 10 input = input
  /\ snd (frameTotal 2 2 10 input) = Return [NaN; Num 7]
  /\ cumulative_row 2 [NaN; Num 7] = [Blank; Shown (Num 7)]
  /\ ~ short_circuits [NaN; Num 7].
Proof.
  intros input. split; [by vm_compute|]. split; [by vm_compute|].
  split; [reflexivity|].
  intros H. specialize (H 0%nat 1%nat eq_refl). simpl in H.
  discriminate H. lia.
Qed.

(** C1, amended.  The cell of a frame is blank exactly when the subtotal
    of that frame is [NaN]; otherwise it shows the sum of the subtotals
    that are not [NaN] up to and including that frame. *)
Theorem cumulative_row_cells (subtotal : list number) (k : nat) (v : number) :
  subtotal !! k = Some v ->
  cumulative_row (length subtotal) subtotal !! k
    = Some (if JS.isNaN v then Blank
            else Shown (Num (recorded_sum (take (S k) subtotal)))).
Proof.
  intros Hv. unfold cumulative_row. rewrite cumulative_loop by done. simpl.
  rewrite list_lookup_fmap, lookup_seq_lt by (by eapply lookup_lt_Some).
  simpl. unfold cumulative_cell_of, at_index. by rewrite Hv.
Qed.

Lemma cumulative_row_cells_witness :
  cumulative_row 3 [Num 9; NaN; Num 7] !! 2%nat = Some (Shown (Num 16)).
Proof.
  apply (cumulative_row_cells [Num 9; NaN; Num 7] 2 (Num 7)). reflexivity.
Defined.

(** * The claims about the glyphs *)

(** C3, as stated, fails on the second slot of the last frame: after a
    strike in the last frame of a validated array, the 3 in the even slot
    [frames * 2] is shown as "3" although it reaches the strike value with
    the throw before it. *)
Lemma second_throw_glyph_counterexample :
  let input := throws_of [Num 10; Num 3; NaN] in
  validate 1 10 input = input
  /\ get input 2 = Num 3
  /\ second_throw_glyph 10 3 (get input 1) = "/"
  /\ throwString 1 10 input 2 = "3"
  /\ throwString 1 10 input 2 ≠ second_throw_glyph 10 3 (get input 1).
Proof.
  intros input. split; [by vm_compute|].
  repeat split; try reflexivity. by vm_compute.
Qed.

(** C3, amended.  A recorded throw [v] in a slot [throws] from 1 on is
    shown by the first-throw rule when [throws] is odd, and when [throws]
    is the second slot [frames * 2] of the last frame and the first throw
    of that frame is at or above the strike value; in every other even
    slot it is shown by the second-throw rule. *)
Theorem throwString_glyph (frames : nat) (strike : Z) (input : array)
    (throws : nat) (v : Z) :
  (1 <= throws)%nat ->
  get input throws = Num v ->
  ((throws mod 2 = 1)%nat ->
     throwString frames strike input throws = first_throw_glyph strike v)
  /\ (forall p, throws = (frames * 2)%nat ->
        get input (throws - 1) = Num p -> strike <= p ->
        throwString frames strike input throws = first_throw_glyph strike v)
  /\ ((throws mod 2 = 0)%nat ->
      ~ (throws = (frames * 2)%nat
         /\ exists p, get input (throws - 1) = Num p /\ strike <= p) ->
      throwString frames strike input throws
        = second_throw_glyph strike v (get input (throws - 1))).
Proof.
  intros _ Hv. unfold throwString, first_throw_glyph, second_throw_glyph.
  rewrite Hv. cbn [JS.isNaN JS.ge JS.strict_eq JS.toString]. repeat split.
  - intros Hodd. apply Nat.eqb_eq in Hodd. by rewrite Hodd.
  - intros p -> Hp Hstrike. rewrite Nat.eqb_refl, Hp.
    cbn [JS.isNaN JS.ge JS.strict_eq JS.toString].
    apply Z.leb_le in Hstrike. rewrite Hstrike. by rewrite orb_true_r.
  - intros Heven Hlast. rewrite Heven.
    cbn [Nat.eqb orb]. destruct (throws =? frames * 2)%nat eqn:Hslot; [|done].
    simpl. apply Nat.eqb_eq in Hslot.
    destruct (get input (throws - 1)) as [p|] eqn:Hp; [|done]. simpl.
    destruct (strike <=? p) eqn:Hstrike; [|done].
    exfalso. apply Hlast. split; [done|]. exists p. split; [done|].
    by apply Z.leb_le.
Qed.

Lemma throwString_glyph_witness :
  let input := throws_of [Num 5; Num 5; Num 10; Num 0; Num 10] in
  throwString 2 10 input 3 = "X"
  /\ throwString 2 10 input 4 = "G"
  /\ throwString 2 10 input 2 = "/".
Proof.
  intros input. split; [|split].
  - apply (proj1 (throwString_glyph 2 10 input 3 10 ltac:(lia) eq_refl)).
    reflexivity.
  - apply (proj1 (proj2
             (throwString_glyph 2 10 input 4 0 ltac:(lia) eq_refl)) 10);
      [reflexivity | reflexivity | lia].
  - apply (proj2 (proj2
             (throwString_glyph 2 10 input 2 5 ltac:(lia) eq_refl)));
      [reflexivity|].
    intros [H _]. discriminate H.
Defined.


(** * Further facts about the validator *)

Section ValidatorMore.

Variable frames : nat.
Variable strike : Z.

Lemma validate_lookup_outside (input : array) (j : nat) :
  (j = 0 \/ frames * 2 + 1 < j)%nat ->
  validate frames strike input !! j = input !! j.
Proof.
  intros Hj. rewrite validate_lookup. unfold validated_lookup.
  assert (clamped_lookup frames strike (fun i => input !! i) j = input !! j)
    as Hc by (unfold clamped_lookup; case_decide; [lia | done]).
  case_decide; [done|].
  destruct (JS.lt _ _); [case_decide; [lia|]|];
    unfold repaired_lookup; (case_decide; [lia | done]).
Qed.

Lemma validate_lookup_first (input : array) (j : nat) :
  (j mod 2 = 1)%nat -> (j < frames * 2)%nat ->
  validate frames strike input !! j = clamp_value strike <$> input !! j.
Proof.
  intros Hodd Hj. rewrite validate_lookup. unfold validated_lookup.
  assert (clamped_lookup frames strike (fun i => input !! i) j
          = clamp_value strike <$> input !! j)
    as Hc by (unfold clamped_lookup; case_decide; [done | lia]).
  case_decide; [lia|].
  destruct (JS.lt _ _); [case_decide; [lia|]|];
    by rewrite repaired_lookup_first.
Qed.

Lemma repaired_unrecorded (first : number) (second : option number) :
  default NaN second = NaN ->
  default NaN (repaired strike first second) = NaN.
Proof.
  intros Hsecond. unfold repaired. rewrite Hsecond.
  destruct (JS.ge _ _); [done|]. by destruct first.
Qed.

Lemma validate_get_unrecorded (input : array) (j : nat) :
  get input j = NaN -> get (validate frames strike input) j = NaN.
Proof.
  unfold get. intros Hj. rewrite validate_lookup.
  set (c := clamped_lookup frames strike (fun i => input !! i)).
  assert (default NaN (c j) = NaN) as Hc.
  { unfold c, clamped_lookup. case_decide; [|done].
    destruct (input !! j) as [v|]; [|done]. simpl in *. by subst v. }
  unfold validated_lookup. case_decide; [done|].
  destruct (JS.lt _ _); [case_decide; [done|]|];
    unfold repaired_lookup; (case_decide; [|done]);
    by apply repaired_unrecorded.
Qed.

Lemma validate_validate_lookup (input : array) (j : nat) :
  validate frames strike (validate frames strike input) !! j
    = validate frames strike input !! j.
Proof.
  rewrite (validate_lookup frames strike (validate _ _ _)).
  set (c := clamped_lookup frames strike (fun i => input !! i)).
  assert (forall i, validate frames strike input !! i
                    = validated_lookup frames strike c i) as Hv
    by (intros i; apply validate_lookup).
  rewrite Hv.
  rewrite (validated_lookup_ext frames strike _
             (validated_lookup frames strike c)).
  - apply validated_lookup_idem.
  - intros i.
    rewrite <- (clamped_lookup_id frames strike
                  (validated_lookup frames strike c) i)
      by apply validated_lookup_clamped, clamped_lookup_clamped.
    unfold clamped_lookup. case_decide; by rewrite ?Hv.
Qed.

Lemma clamped_lookup_get (input : array) (j : nat) :
  (1 <= j <= frames * 2 + 1)%nat ->
  default NaN (clamped_lookup frames strike (fun i => input !! i) j)
    = clamp_value strike (get input j).
Proof.
  intros Hj. unfold clamped_lookup, get. case_decide; [|lia].
  by destruct (input !! j).
Qed.

Lemma validate_lookup_second (input : array) (frame : nat) :
  (1 <= frame < frames)%nat ->
  validate frames strike input !! (frame * 2)%nat
    = repaired strike (clamp_value strike (get input (frame * 2 - 1)))
        (clamp_value strike <$> input !! (frame * 2)%nat).
Proof.
  intros Hframe. rewrite validate_lookup. unfold validated_lookup.
  case_decide; [lia|].
  destruct (JS.lt _ _); [case_decide; [lia|]|];
    unfold repaired_lookup; (case_decide; [|lia]);
    rewrite clamped_lookup_get by lia;
    unfold clamped_lookup; (case_decide; [done | lia]).
Qed.

Lemma validate_lookup_last (input : array) :
  (1 <= frames)%nat ->
  let first := clamp_value strike (get input (frames * 2 - 1)) in
  let second := clamp_value strike (get input (frames * 2)) in
  if JS.lt (JS.add first second) (Num strike)
  then validate frames strike input !! (frames * 2)%nat
         = repaired strike first
             (clamp_value strike <$> input !! (frames * 2)%nat)
       /\ validate frames strike input !! (frames * 2 + 1)%nat = Some NaN
  else validate frames strike input !! (frames * 2)%nat
         = clamp_value strike <$> input !! (frames * 2)%nat
       /\ validate frames strike input !! (frames * 2 + 1)%nat
         = clamp_value strike <$> input !! (frames * 2 + 1)%nat.
Proof.
  intros Hframes first second. rewrite !validate_lookup.
  unfold validated_lookup. case_decide; [lia|].
  rewrite !clamped_lookup_get by lia. fold first second.
  destruct (JS.lt _ _).
  - repeat case_decide; try lia. split; [|done].
    unfold repaired_lookup. case_decide; [|lia].
    rewrite clamped_lookup_get by lia.
    unfold clamped_lookup. case_decide; [done | lia].
  - rewrite !repaired_lookup_beyond by lia.
    unfold clamped_lookup. by repeat (case_decide; try lia).
Qed.

Lemma validate_lookup_some (input : array) (j : nat) :
  is_Some (input !! j) -> is_Some (validate frames strike input !! j).
Proof.
  intros [v Hv]. rewrite validate_lookup.
  set (c := clamped_lookup frames strike (fun i => input !! i)).
  assert (is_Some (c j)) as Hc
    by (unfold c, clamped_lookup; case_decide; rewrite Hv; by eexists).
  assert (forall n, is_Some (repaired_lookup strike n c j)) as Hrepaired.
  { intros n. unfold repaired_lookup, repaired. by repeat case_match. }
  unfold validated_lookup. by repeat case_match.
Qed.

End ValidatorMore.

(** * Further properties of the validator *)

(** X1.  The validator works on the slots [1 .. frames * 2 + 1] only:
    slot 0 and the slots after the bonus slot are left as they are, and
    no slot of the array is removed. *)
Theorem validate_other_slots (frames : nat) (strike : Z) (input : array)
    (j : nat) :
  ((j = 0 \/ frames * 2 + 1 < j)%nat ->
     validate frames strike input !! j = input !! j)
  /\ (is_Some (input !! j) -> is_Some (validate frames strike input !! j)).
Proof.
  split; [apply validate_lookup_outside | apply validate_lookup_some].
Qed.

Lemma validate_other_slots_witness :
  validate 1 10 (throws_of [Num 3; Num 9; NaN; Num 77]) !! 4%nat
    = Some (Num 77).
Proof.
  apply (validate_other_slots 1 10 (throws_of [Num 3; Num 9; NaN; Num 77]) 4).
  right. lia.
Defined.

(** X2.  The first throw of a frame is only ever clamped: below 0 it
    becomes 0, above the strike value it becomes the strike value, and
    otherwise it stays as entered. *)
Theorem validate_first_throw (frames : nat) (strike : Z) (input : array)
    (frame : nat) (x : Z) :
  (1 <= frame <= frames)%nat ->
  0 <= strike ->
  get input (frame * 2 - 1) = Num x ->
  get (validate frames strike input) (frame * 2 - 1)
    = Num (Z.min strike (Z.max 0 x)).
Proof.
  intros Hframe Hstrike Hx. unfold get in *.
  rewrite validate_lookup_first by lia.
  destruct (input !! (frame * 2 - 1)%nat) as [v|]; [|done].
  simpl in *. subst v. simpl. f_equal.
  destruct (x <? 0) eqn:E1; [apply Z.ltb_lt in E1|apply Z.ltb_ge in E1];
    (destruct (strike <? _) eqn:E2;
       [apply Z.ltb_lt in E2|apply Z.ltb_ge in E2]); lia.
Qed.

Lemma validate_first_throw_witness :
  get (validate 2 10 (throws_of [Num 4; Num 9; Num 25; NaN; NaN])) 3 = Num 10.
Proof.
  apply (validate_first_throw 2 10
           (throws_of [Num 4; Num 9; Num 25; NaN; NaN]) 2 25);
    [lia | lia | reflexivity].
Defined.

(** X3.  The validator never records a throw: a slot that reads [NaN]
    before still reads [NaN] after. *)
Theorem validate_keeps_unrecorded (frames : nat) (strike : Z) (input : array)
    (j : nat) :
  get input j = NaN -> get (validate frames strike input) j = NaN.
Proof. apply validate_get_unrecorded. Qed.

Lemma validate_keeps_unrecorded_witness :
  get (validate 1 10 (throws_of [Num 12; NaN; Num 4])) 2 = NaN.
Proof.
  apply (validate_keeps_unrecorded 1 10 (throws_of [Num 12; NaN; Num 4]) 2).
  reflexivity.
Defined.

Lemma clamp_value_in_range (strike : Z) (v : number) :
  (forall z, v = Num z -> 0 <= z <= strike) -> clamp_value strike v = v.
Proof.
  destruct v as [z|]; [|done]. intros H.
  apply clamp_value_fixed. left. by apply H.
Qed.

Lemma validate_legal_fixed (frames : nat) (strike : Z) (input : array) :
  legal frames strike input -> validate frames strike input = input.
Proof.
  intros (Hrange & Hregular & Hlast). apply map_eq. intros j.
  assert (forall i, (1 <= i <= frames * 2 + 1)%nat ->
            clamp_value strike <$> input !! i = input !! i) as Hclamp.
  { intros i Hi. destruct (Hrange i Hi) as (v & -> & Hv). simpl.
    by rewrite clamp_value_in_range. }
  assert (forall i, (1 <= i <= frames * 2 + 1)%nat ->
            clamp_value strike (get input i) = get input i) as Hclamp'.
  { intros i Hi. unfold get. destruct (Hrange i Hi) as (v & -> & Hv). simpl.
    by rewrite clamp_value_in_range. }
  assert (forall i, (1 <= i <= frames * 2 + 1)%nat ->
            input !! i = Some (get input i)) as Hsome.
  { intros i Hi. unfold get. by destruct (Hrange i Hi) as (v & -> & Hv). }
  destruct (decide (j = 0 \/ frames * 2 + 1 < j)%nat) as [Hout|Hin];
    [by apply validate_lookup_outside|].
  destruct (decide (j mod 2 = 1 /\ j < frames * 2)%nat) as [[Hodd Hlt]|Hnot];
    [rewrite validate_lookup_first by done; apply Hclamp; lia|].
  destruct (decide (frames = 0)%nat) as [Hzero|Hpositive].
  { rewrite validate_lookup. unfold validated_lookup, clamped_lookup.
    repeat case_decide; try lia. apply Hclamp. lia. }
  assert (1 <= frames)%nat as Hframes by lia.
  pose proof (validate_lookup_last frames strike input Hframes) as Hend.
  cbv zeta in Hend. rewrite !Hclamp, !Hclamp' in Hend by lia.
  destruct (decide (j = frames * 2 + 1)%nat) as [->|Hbonus].
  { destruct (JS.lt _ _) eqn:Hlt; [|by apply Hend].
    destruct Hend as [_ ->]. rewrite Hsome by lia. f_equal. symmetry.
    apply below_strike_lt in Hlt as (x & y & Hx & Hy & Hsum). eauto. }
  destruct (decide (j = frames * 2)%nat) as [->|Hsecond].
  { destruct (JS.lt _ _) eqn:Hlt; [|by apply Hend].
    destruct Hend as [-> _].
    apply below_strike_lt in Hlt as (x & y & Hx & Hy & Hsum).
    rewrite Hx, Hsome, Hy by lia. unfold repaired. simpl.
    destruct (Hrange (frames * 2)%nat ltac:(lia)) as (v & Hv & Hy0).
    rewrite Hsome, Hy in Hv by lia. injection Hv as <-.
    specialize (Hy0 y eq_refl).
    replace (strike <=? x) with false by (symmetry; apply Z.leb_gt; lia).
    by replace (strike <? x + y) with false
      by (symmetry; apply Z.ltb_ge; lia). }
  assert (exists frame, (1 <= frame < frames)%nat /\ j = (frame * 2)%nat)
    as (frame & Hframe & ->) by (exists (j / 2)%nat; lia).
  rewrite validate_lookup_second, Hclamp, Hclamp' by lia.
  rewrite (Hsome (frame * 2)%nat) by lia. unfold repaired.
  destruct (get input (frame * 2 - 1)) as [x|] eqn:Hx; [|done].
  destruct (Hregular frame x Hframe Hx) as [Hstrike Hsum]. simpl.
  destruct (strike <=? x) eqn:Hge.
  - rewrite Hstrike; [done|]. by apply Z.leb_le.
  - destruct (get input (frame * 2)) as [y|] eqn:Hy; [|done]. simpl.
    specialize (Hsum y eq_refl).
    by replace (strike <? x + y) with false by (symmetry; apply Z.ltb_ge; lia).
Qed.

(** X4.  A game the rules allow is left as it is. *)
Theorem validate_legal_unchanged (frames : nat) (strike : Z) (input : array) :
  legal frames strike input -> validate frames strike input = input.
Proof. apply validate_legal_fixed. Qed.

Lemma validate_legal_unchanged_witness :
  validate 1 10 (throws_of [Num 3; Num 4; NaN]) = throws_of [Num 3; Num 4; NaN].
Proof.
  apply (validate_legal_unchanged 1 10 (throws_of [Num 3; Num 4; NaN])).
  split; [|split].
  - intros j Hj.
    destruct j as [|[|[|[|j]]]]; try (simpl in Hj; lia);
      eexists; (split; [reflexivity|]); intros z [= <-]; lia.
  - intros frame x Hframe. lia.
  - intros x y _ _ _. reflexivity.
Defined.

(** X5.  On an array that has all its slots, with at least one frame and
    a strike value that is not negative, the validator yields a game the
    rules allow. *)
Theorem validate_yields_legal (frames : nat) (strike : Z) (input : array) :
  (1 <= frames)%nat ->
  0 <= strike ->
  (forall j, (1 <= j <= frames * 2 + 1)%nat -> is_Some (input !! j)) ->
  legal frames strike (validate frames strike input).
Proof.
  intros Hframes Hstrike Hslots.
  assert (forall i, (i mod 2 = 1)%nat -> (i < frames * 2)%nat ->
            get (validate frames strike input) i
              = clamp_value strike (get input i)) as Hfirst.
  { intros i Hodd Hi. unfold get. rewrite validate_lookup_first by done.
    by destruct (input !! i). }
  pose proof (validate_lookup_last frames strike input Hframes) as Hend.
  cbv zeta in Hend.
  split; [|split].
  - intros j Hj.
    destruct (validate_lookup_some frames strike input j (Hslots j Hj))
      as [v Hv].
    exists v. split; [done|]. intros z ->.
    rewrite validate_lookup in Hv.
    pose proof (validated_lookup_clamped frames strike _
                  (clamped_lookup_clamped frames strike (fun i => input !! i))
                  j Hj) as Hfixed.
    rewrite Hv in Hfixed.
    change (Some (clamp_value strike (Num z)) = Some (Num z)) in Hfixed.
    apply (inj Some), clamp_value_fixed in Hfixed. lia.
  - intros frame x Hframe Hx. rewrite Hfirst in Hx by lia.
    unfold get at 1 2. rewrite validate_lookup_second by done.
    pose proof (repaired_rule strike
                  (clamp_value strike (get input (frame * 2 - 1)))
                  (clamp_value strike <$> input !! (frame * 2)%nat))
      as (Hrule1 & _ & Hrule3).
    split.
    + intros Hge. by apply (Hrule1 x).
    + intros y Hy. destruct (decide (strike <= x)) as [Hge|Hlt].
      * rewrite (Hrule1 x Hx Hge) in Hy. discriminate Hy.
      * apply (Hrule3 x y); [done | lia | done].
  - intros x y Hx Hy Hsum. rewrite Hfirst in Hx by lia.
    unfold get in Hy |- *.
    destruct (JS.lt _ _) eqn:Hlt; destruct Hend as [Hsecond Hbonus].
    + by rewrite Hbonus.
    + rewrite Hsecond in Hy. exfalso.
      assert (below_strike strike
                (clamp_value strike (get input (frames * 2 - 1)))
                (clamp_value strike (get input (frames * 2)))) as Hbelow.
      { exists x, y. split; [done|]. split; [|done]. unfold get.
        by destruct (input !! (frames * 2)%nat). }
      apply below_strike_lt in Hbelow. congruence.
Qed.

Lemma validate_yields_legal_witness :
  legal 1 10 (validate 1 10 (throws_of [Num 12; Num (-3); Num 7])).
Proof.
  apply (validate_yields_legal 1 10 (throws_of [Num 12; Num (-3); Num 7]));
    [lia | lia |].
  intros j Hj.
  destruct j as [|[|[|[|j]]]]; try (simpl in Hj; lia); by eexists.
Defined.

(** X6.  The last frame is repaired only when its two throws sum to less
    than the strike value: otherwise (a strike, a spare, a sum above the
    strike value, or a throw still missing) its second slot and the bonus
    slot are left as entered, clamped. *)
Theorem validate_last_frame_kept (frames : nat) (strike : Z) (input : array) :
  (1 <= frames)%nat ->
  ~ below_strike strike
      (clamp_value strike (get input (frames * 2 - 1)))
      (clamp_value strike (get input (frames * 2))) ->
  validate frames strike input !! (frames * 2)%nat
    = clamp_value strike <$> input !! (frames * 2)%nat
  /\ validate frames strike input !! (frames * 2 + 1)%nat
    = clamp_value strike <$> input !! (frames * 2 + 1)%nat.
Proof.
  intros Hframes Hnot.
  pose proof (validate_lookup_last frames strike input Hframes) as Hend.
  cbv zeta in Hend.
  destruct (JS.lt _ _) eqn:Hlt; [|done].
  by apply below_strike_lt in Hlt.
Qed.

Lemma validate_last_frame_kept_witness :
  let input := throws_of [Num 7; Num 8; Num 12] in
  validate 1 10 input !! 2%nat = Some (Num 8)
  /\ validate 1 10 input !! 3%nat = Some (Num 10).
Proof.
  intros input. apply (validate_last_frame_kept 1 10 input); [lia|].
  intros (x & y & Hx & Hy & Hsum). vm_compute in Hx, Hy.
  injection Hx as <-. injection Hy as <-. lia.
Defined.

(** * Further facts about the frame scorer *)

Section FrameScorerMore.

Variable stack : nat.
Variable frames : nat.
Variable strike : Z.

Lemma next_outcome_found (input : array) (depth p j : nat) :
  next_recorded input p j ->
  (j - p <= depth)%nat -> (j <= frames * 2 + 2)%nat ->
  next_outcome frames input depth p = Return j.
Proof.
  intros (Hlt & Hj & Hskip). revert p Hlt Hskip.
  induction depth as [|depth IH]; intros p Hlt Hskip Hdepth Hend; [lia|].
  simpl. destruct (decide (j = p + 1)%nat) as [->|Hne].
  - rewrite Hj.
    by replace (frames * 2 + 1 <? p)%nat with false
      by (symmetry; apply Nat.ltb_ge; lia).
  - rewrite (Hskip (p + 1)%nat) by lia. simpl.
    apply IH; [lia | | lia | done]. intros i Hi. apply Hskip. lia.
Qed.

Lemma next_outcome_enough (input : array) (n depth depth' p : nat) :
  exhausted input n ->
  (n <= p + depth)%nat -> (n <= p + depth')%nat ->
  next_outcome frames input depth p = next_outcome frames input depth' p.
Proof.
  intros Hn. revert depth' p.
  induction depth as [|depth IH]; intros depth' p Hd Hd'.
  - assert (exhausted input p) as Hp by (intros i Hi; apply Hn; lia).
    by rewrite !(next_outcome_exhausted frames input _ p Hp).
  - destruct depth' as [|depth'].
    + assert (exhausted input p) as Hp by (intros i Hi; apply Hn; lia).
      by rewrite !(next_outcome_exhausted frames input _ p Hp).
    + simpl. destruct (JS.isNaN _); [apply IH; lia | done].
Qed.

Lemma frameTotal_entry (input : array) (k : nat) :
  (k < frames)%nat ->
  exists subtotal,
    snd (frameTotal stack frames strike input) = Return subtotal
    /\ subtotal !! k
       = Some (frame_score stack frames strike input (2 * k + 1)).
Proof.
  intros Hk. rewrite frameTotal_scores. eexists. split; [reflexivity|].
  by rewrite list_lookup_fmap, first_slots_lookup.
Qed.

Lemma capStrike_num (b : Z) :
  capStrike strike (Num b) = Num (Z.min strike b).
Proof.
  unfold capStrike. simpl.
  destruct (strike <? b) eqn:E; [apply Z.ltb_lt in E|apply Z.ltb_ge in E];
    f_equal; lia.
Qed.

Lemma frame_score_open (input : array) (t : nat) (x y : Z) :
  get input t = Num x -> get input (t + 1) = Num y ->
  x < strike -> x + y < strike ->
  frame_score stack frames strike input t = Num (x + y).
Proof.
  intros Hx Hy Hlt Hsum. unfold frame_score. rewrite Hx, Hy. simpl.
  replace (strike <=? x) with false by (symmetry; apply Z.leb_gt; lia).
  by replace (strike <=? y + x) with false by (symmetry; apply Z.leb_gt; lia).
Qed.

Lemma frame_score_missing (input : array) (t : nat) :
  JS.ge (get input t) (Num strike) = false ->
  get input t = NaN \/ get input (t + 1) = NaN ->
  frame_score stack frames strike input t = NaN.
Proof.
  intros Hge Hnan. unfold frame_score. rewrite Hge.
  destruct Hnan as [Hnan|Hnan]; rewrite ?Hnan in *; simpl.
  - by destruct (get input (t + 1)).
  - by destruct (get input t).
Qed.

Lemma frame_score_spare (input : array) (t j : nat) (x y b : Z) :
  get input t = Num x -> get input (t + 1) = Num y ->
  x < strike -> strike <= x + y ->
  next_recorded input (t + 1) j -> get input j = Num b ->
  (t <= frames * 2)%nat -> (j <= frames * 2 + 2)%nat ->
  (j - (t + 1) <= stack)%nat ->
  frame_score stack frames strike input t = Num (strike + Z.min strike b).
Proof.
  intros Hx Hy Hlt Hsum Hnext Hb Ht Hj Hstack.
  unfold frame_score. rewrite Hx, Hy. simpl.
  replace (strike <=? x) with false by (symmetry; apply Z.leb_gt; lia).
  replace (strike <=? y + x) with true by (symmetry; apply Z.leb_le; lia).
  assert (1 <= stack)%nat as Hone by (destruct Hnext; lia).
  rewrite (next_outcome_found input stack t (t + 1)); try lia.
  - rewrite (next_outcome_found input stack (t + 1) j) by done.
    by rewrite Hb, capStrike_num.
  - split; [lia|]. split; [by rewrite Hy | intros i Hi; lia].
Qed.

Lemma frame_score_strike (input : array) (t j j' : nat) (x b b' : Z) :
  get input t = Num x -> strike <= x ->
  next_recorded input t j -> get input j = Num b ->
  next_recorded input j j' -> get input j' = Num b' ->
  (j' <= frames * 2 + 2)%nat ->
  (j - t <= stack)%nat -> (j' - j <= stack)%nat ->
  frame_score stack frames strike input t
    = Num (strike + Z.min strike b + Z.min strike b').
Proof.
  intros Hx Hge Hnext Hb Hnext' Hb' Hend Hstack Hstack'.
  unfold frame_score. rewrite Hx. simpl.
  replace (strike <=? x) with true by (symmetry; apply Z.leb_le; lia).
  assert (j < j')%nat by (by destruct Hnext').
  rewrite (next_outcome_found input stack t j) by (done || lia).
  rewrite (next_outcome_found input stack j j') by done.
  by rewrite Hb, Hb', !capStrike_num.
Qed.

Lemma frame_score_upper (input : array) (t : nat) (v : Z) :
  0 <= strike ->
  frame_score stack frames strike input t = Num v -> v <= 3 * strike.
Proof.
  intros Hstrike. unfold frame_score.
  assert (forall a, match capStrike strike a with
                    | Num c => c <= strike | NaN => True end) as Hcap.
  { intros [c|]; [|done]. rewrite capStrike_num. lia. }
  destruct (JS.ge (get input t) _) eqn:Hge.
  - destruct (next_outcome _ _ _ t) as [i|]; [|done].
    destruct (next_outcome _ _ _ i) as [i'|]; [|done].
    pose proof (Hcap (get input i)). pose proof (Hcap (get input i')).
    destruct (capStrike strike (get input i)),
             (capStrike strike (get input i')); try done.
    simpl. intros [= <-]. lia.
  - destruct (JS.ge (JS.add _ _) _) eqn:Hspare.
    + destruct (next_outcome _ _ _ t) as [j|]; [|done].
      destruct (next_outcome _ _ _ j) as [i|]; [|done].
      pose proof (Hcap (get input i)).
      destruct (capStrike strike (get input i)); try done.
      simpl. intros [= <-]. lia.
    + destruct (get input t) as [x|], (get input (t + 1)) as [y|];
        try done.
      simpl in *. intros [= <-]. apply Z.leb_gt in Hspare. lia.
Qed.

Lemma frame_score_lower (input : array) (t : nat) (v : Z) :
  0 <= strike ->
  (forall i z, get input i = Num z -> 0 <= z) ->
  frame_score stack frames strike input t = Num v -> 0 <= v.
Proof.
  intros Hstrike Hinput. unfold frame_score.
  assert (forall i, match capStrike strike (get input i) with
                    | Num c => 0 <= c | NaN => True end) as Hcap.
  { intros i. destruct (get input i) as [c|] eqn:Hc; [|done].
    rewrite capStrike_num. specialize (Hinput i c Hc). lia. }
  destruct (JS.ge (get input t) _) eqn:Hge.
  - destruct (next_outcome _ _ _ t) as [i|]; [|done].
    destruct (next_outcome _ _ _ i) as [i'|]; [|done].
    pose proof (Hcap i). pose proof (Hcap i').
    destruct (capStrike strike (get input i)),
             (capStrike strike (get input i')); try done.
    simpl. intros [= <-]. lia.
  - destruct (JS.ge (JS.add _ _) _) eqn:Hspare.
    + destruct (next_outcome _ _ _ t) as [j|]; [|done].
      destruct (next_outcome _ _ _ j) as [i|]; [|done].
      pose proof (Hcap i).
      destruct (capStrike strike (get input i)); try done.
      simpl. intros [= <-]. lia.
    + destruct (get input t) as [x|] eqn:Hx,
               (get input (t + 1)) as [y|] eqn:Hy; try done.
      simpl. intros [= <-].
      pose proof (Hinput _ _ Hx). pose proof (Hinput _ _ Hy). lia.
Qed.

Lemma frame_score_enough (input : array) (stack' t : nat) :
  exhausted input (frames * 2 + 1) ->
  (1 <= t)%nat ->
  (frames * 2 <= stack)%nat -> (frames * 2 <= stack')%nat ->
  frame_score stack frames strike input t
    = frame_score stack' frames strike input t.
Proof.
  intros Hend Ht Hstack Hstack'. unfold frame_score.
  assert (forall p, (1 <= p)%nat ->
            next_outcome frames input stack p
              = next_outcome frames input stack' p) as Hnext
    by (intros p Hp; apply (next_outcome_enough _ _ _ _ _ Hend); lia).
  rewrite (Hnext t Ht).
  destruct (next_outcome frames input stack' t) as [j|] eqn:Hj; [|done].
  apply next_outcome_return in Hj as (Hlt & _).
  by rewrite (Hnext j) by lia.
Qed.

End FrameScorerMore.

(** * Further properties of the frame scorer *)

(** X7.  [next] finds the first recorded throw after its argument and
    leaves the arrays alone: what it returns is that slot, and it does
    return it when the slot is at most one past the bonus slot and the
    stack has room for one call for each slot passed. *)
Theorem next_first_recorded (stack frames : nat) (h : heap) (p j : nat) :
  (snd (next stack frames p h) = Return j ->
     fst (next stack frames p h) = h /\ next_recorded (input_array h) p j)
  /\ (next_recorded (input_array h) p j ->
      (j - p <= stack)%nat -> (j <= frames * 2 + 2)%nat ->
      next stack frames p h = (h, Return j)).
Proof.
  unfold next. rewrite next_at_outcome. simpl. split.
  - intros Hj. split; [done|]. by apply next_outcome_return in Hj.
  - intros Hnext Hstack Hend. f_equal. by apply next_outcome_found.
Qed.

Lemma next_first_recorded_witness :
  let h := Heap (throws_of [Num 10; NaN; NaN; Num 4; NaN]) [] in
  next 3 2 1 h = (h, Return 4%nat).
Proof.
  intros h. apply (proj2 (next_first_recorded 3 2 h 1 4)); [|simpl; lia..].
  split; [lia|]. split; [reflexivity|]. intros i Hi.
  destruct i as [|[|[|[|i]]]]; try lia; reflexivity.
Defined.

(** X8.  On an array that holds nothing after the bonus slot, [next]
    never throws the "Invalid frame access" of line 94, whatever the
    slot it starts from. *)
Theorem next_no_invalid_access (stack frames : nat) (h : heap) (p : nat)
    (message : string) :
  exhausted (input_array h) (frames * 2 + 1) ->
  snd (next stack frames p h) ≠ Throw (Error message).
Proof.
  intros Hend. unfold next. rewrite next_at_outcome. simpl.
  by apply next_outcome_no_error.
Qed.

Lemma next_no_invalid_access_witness :
  snd (next 50 1 7 (Heap (throws_of [Num 10; NaN; NaN]) []))
    ≠ Throw (Error "Invalid frame access").
Proof.
  apply (next_no_invalid_access 50 1 (Heap (throws_of [Num 10; NaN; NaN]) [])).
  simpl. apply exhausted_throws_of. intros i Hi.
  destruct i as [|[|[|i]]]; try lia; reflexivity.
Defined.

(** X9.  An open frame scores the sum of its two throws: a first throw
    below the strike value and a second that leaves the sum below it
    give their sum, whatever follows and whatever the stack. *)
Theorem frameTotal_open_frame (stack frames : nat) (strike : Z)
    (input : array) (k : nat) (x y : Z) :
  (k < frames)%nat ->
  get input (2 * k + 1) = Num x -> get input (2 * k + 2) = Num y ->
  x < strike -> x + y < strike ->
  exists subtotal,
    snd (frameTotal stack frames strike input) = Return subtotal
    /\ subtotal !! k = Some (Num (x + y)).
Proof.
  intros Hk Hx Hy Hlt Hsum.
  destruct (frameTotal_entry stack frames strike input k Hk)
    as (subtotal & Hreturn & Hentry).
  exists subtotal. split; [done|]. rewrite Hentry. f_equal.
  apply frame_score_open; try done.
  by replace (2 * k + 1 + 1)%nat with (2 * k + 2)%nat by lia.
Qed.

Lemma frameTotal_open_frame_witness :
  exists subtotal,
    snd (frameTotal 0 2 10 (throws_of [NaN; NaN; Num 3; Num 4; NaN]))
      = Return subtotal
    /\ subtotal !! 1%nat = Some (Num 7).
Proof.
  apply (frameTotal_open_frame 0 2 10
           (throws_of [NaN; NaN; Num 3; Num 4; NaN]) 1 3 4);
    [lia | reflexivity | reflexivity | lia | lia].
Defined.

(** X10.  A frame that is not a strike and lacks one of its two throws
    is incomplete. *)
Theorem frameTotal_missing_throw (stack frames : nat) (strike : Z)
    (input : array) (k : nat) :
  (k < frames)%nat ->
  get input (2 * k + 1) = NaN
  \/ (exists x, get input (2 * k + 1) = Num x /\ x < strike
                /\ get input (2 * k + 2) = NaN) ->
  exists subtotal,
    snd (frameTotal stack frames strike input) = Return subtotal
    /\ subtotal !! k = Some NaN.
Proof.
  intros Hk Hmissing.
  destruct (frameTotal_entry stack frames strike input k Hk)
    as (subtotal & Hreturn & Hentry).
  exists subtotal. split; [done|]. rewrite Hentry. f_equal.
  replace (2 * k + 2)%nat with (2 * k + 1 + 1)%nat in Hmissing by lia.
  destruct Hmissing as [Hfirst | (x & Hx & Hlt & Hsecond)].
  - apply frame_score_missing; [by rewrite Hfirst | by left].
  - apply frame_score_missing; [|by right].
    rewrite Hx. simpl. apply Z.leb_gt. lia.
Qed.

Lemma frameTotal_missing_throw_witness :
  exists subtotal,
    snd (frameTotal 9 1 10 (throws_of [Num 3; NaN; Num 5])) = Return subtotal
    /\ subtotal !! 0%nat = Some NaN.
Proof.
  apply (frameTotal_missing_throw 9 1 10 (throws_of [Num 3; NaN; Num 5]) 0);
    [lia|].
  right. exists 3. split; [reflexivity|]. split; [lia | reflexivity].
Defined.

(** X11.  A spare scores the strike value plus the next recorded throw,
    counted for at most the strike value, when the stack has room for
    the slots skipped. *)
Theorem frameTotal_spare (stack frames : nat) (strike : Z) (input : array)
    (k j : nat) (x y b : Z) :
  (k < frames)%nat ->
  get input (2 * k + 1) = Num x -> get input (2 * k + 2) = Num y ->
  x < strike -> strike <= x + y ->
  next_recorded input (2 * k + 2) j -> get input j = Num b ->
  (j <= frames * 2 + 2)%nat -> (j - (2 * k + 2) <= stack)%nat ->
  exists subtotal,
    snd (frameTotal stack frames strike input) = Return subtotal
    /\ subtotal !! k = Some (Num (strike + Z.min strike b)).
Proof.
  intros Hk Hx Hy Hlt Hsum Hnext Hb Hend Hstack.
  destruct (frameTotal_entry stack frames strike input k Hk)
    as (subtotal & Hreturn & Hentry).
  exists subtotal. split; [done|]. rewrite Hentry. f_equal.
  replace (2 * k + 2)%nat with (2 * k + 1 + 1)%nat in * by lia.
  apply (frame_score_spare stack frames strike input _ j x y b);
    try done; lia.
Qed.

Lemma frameTotal_spare_witness :
  exists subtotal,
    snd (frameTotal 1 2 10 (throws_of [Num 5; Num 5; Num 3; NaN; NaN]))
      = Return subtotal
    /\ subtotal !! 0%nat = Some (Num 13).
Proof.
  apply (frameTotal_spare 1 2 10
           (throws_of [Num 5; Num 5; Num 3; NaN; NaN]) 0 3 5 5 3);
    try reflexivity; try (simpl; lia).
  split; [simpl; lia|]. split; [reflexivity|]. intros i Hi. simpl in Hi. lia.
Defined.

(** X12.  A strike scores the strike value plus the next two recorded
    throws, each counted for at most the strike value, when the stack has
    room for the slots skipped before each of them. *)
Theorem frameTotal_strike (stack frames : nat) (strike : Z) (input : array)
    (k j j' : nat) (x b b' : Z) :
  (k < frames)%nat ->
  get input (2 * k + 1) = Num x -> strike <= x ->
  next_recorded input (2 * k + 1) j -> get input j = Num b ->
  next_recorded input j j' -> get input j' = Num b' ->
  (j' <= frames * 2 + 2)%nat ->
  (j - (2 * k + 1) <= stack)%nat -> (j' - j <= stack)%nat ->
  exists subtotal,
    snd (frameTotal stack frames strike input) = Return subtotal
    /\ subtotal !! k
       = Some (Num (strike + Z.min strike b + Z.min strike b')).
Proof.
  intros Hk Hx Hge Hnext Hb Hnext' Hb' Hend Hstack Hstack'.
  destruct (frameTotal_entry stack frames strike input k Hk)
    as (subtotal & Hreturn & Hentry).
  exists subtotal. split; [done|]. rewrite Hentry. f_equal.
  by apply (frame_score_strike stack frames strike input _ j j' x b b').
Qed.

Lemma frameTotal_strike_witness :
  exists subtotal,
    snd (frameTotal 2 2 10 (throws_of [Num 10; NaN; Num 7; Num 2; NaN]))
      = Return subtotal
    /\ subtotal !! 0%nat = Some (Num 19).
Proof.
  apply (frameTotal_strike 2 2 10
           (throws_of [Num 10; NaN; Num 7; Num 2; NaN]) 0 3 4 10 7 2);
    try reflexivity; try (simpl; lia).
  - split; [simpl; lia|]. split; [reflexivity|]. intros i Hi. simpl in Hi.
    by replace i with 2%nat by lia.
  - split; [lia|]. split; [reflexivity|]. intros i Hi. lia.
Defined.

Lemma total_from (a : number) (subtotal : list number) :
  foldl (fun sum value => JS.add sum value) a subtotal
    = match a with
      | Num z =>
          if decide (complete subtotal) then Num (z + recorded_sum subtotal)
          else NaN
      | NaN => NaN
      end.
Proof.
  unfold complete. revert a.
  induction subtotal as [|v subtotal IH]; intros a; simpl.
  - destruct a as [z|]; [|done]. by rewrite Z.add_0_r.
  - rewrite IH. destruct a as [z|]; [|by destruct v].
    destruct v as [z'|]; cbn [JS.add].
    + destruct (decide (Forall _ subtotal)) as [Hall|Hnot].
      * rewrite decide_True by (by constructor). f_equal. lia.
      * rewrite decide_False; [done|]. by intros [_ ?]%Forall_cons.
    + rewrite decide_False; [done|]. by intros [? _]%Forall_cons.
Qed.

Lemma cumulative_loop_length (subtotal : list number) (sum : number)
    (cells : list cell) (slots : list nat) :
  length (snd (foldl (cumulative_cell subtotal) (sum, cells) slots))
    = (length cells + length slots)%nat.
Proof.
  revert sum cells. induction slots as [|t slots IH]; intros sum cells; simpl.
  - lia.
  - destruct (JS.isNaN _); rewrite IH, length_app; simpl; lia.
Qed.

Lemma cumulative_row_length (frames : nat) (subtotal : list number) :
  length (cumulative_row frames subtotal) = frames.
Proof.
  unfold cumulative_row. by rewrite cumulative_loop_length, length_seq.
Qed.

(** X13.  A strike value that is not negative bounds every subtotal by
    three times itself, on any array: the two throws after a strike and
    the throw after a spare count for at most the strike value each.  No
    subtotal is negative when no recorded throw is.  The total, when all
    frames are complete, is thus at most [3 * strike * frames]. *)
Theorem frameTotal_bounds (stack frames : nat) (strike : Z) (input : array) :
  0 <= strike ->
  exists subtotal,
    snd (frameTotal stack frames strike input) = Return subtotal
    /\ (forall k v, subtotal !! k = Some (Num v) -> v <= 3 * strike)
    /\ ((forall i z, get input i = Num z -> 0 <= z) ->
        forall k v, subtotal !! k = Some (Num v) -> 0 <= v)
    /\ (forall z, total subtotal = Num z ->
        z <= 3 * strike * Z.of_nat frames).
Proof.
  intros Hstrike. rewrite frameTotal_scores. eexists. split; [reflexivity|].
  assert (forall k v,
            map (frame_score stack frames strike input) (first_slots frames)
              !! k = Some (Num v) ->
            v <= 3 * strike) as Hupper.
  { intros k v Hv. rewrite list_lookup_fmap in Hv.
    destruct (first_slots frames !! k) as [t|]; [|done].
    injection Hv as Hv. by apply frame_score_upper in Hv. }
  split; [done|]. split.
  - intros Hinput k v Hv. rewrite list_lookup_fmap in Hv.
    destruct (first_slots frames !! k) as [t|]; [|done].
    injection Hv as Hv. by apply frame_score_lower in Hv.
  - intros z. unfold total. rewrite total_from.
    case_decide as Hcomplete; [|done]. intros [= <-].
    assert (length (map (frame_score stack frames strike input)
                      (first_slots frames)) = frames) as Hlength
      by (unfold first_slots; by rewrite !length_map, length_seq).
    revert Hupper Hlength.
    generalize (map (frame_score stack frames strike input)
                  (first_slots frames)).
    intros l Hupper <-. clear Hcomplete.
    induction l as [|[v|] l IH]; cbn [recorded_sum length].
    + lia.
    + pose proof (Hupper 0%nat v eq_refl).
      specialize (IH (fun k => Hupper (S k))). lia.
    + specialize (IH (fun k => Hupper (S k))). lia.
Qed.

Lemma frameTotal_bounds_witness :
  exists subtotal,
    snd (frameTotal 2 1 10 (throws_of [Num 99; Num 99; Num 99]))
      = Return subtotal
    /\ forall k v, subtotal !! k = Some (Num v) -> v <= 3 * 10.
Proof.
  destruct (frameTotal_bounds 2 1 10 (throws_of [Num 99; Num 99; Num 99]))
    as (subtotal & Hreturn & Hupper & _); [lia|].
  by exists subtotal.
Defined.

(** X14.  On an array that holds nothing after the bonus slot, the
    result does not depend on the room on the stack once there is room
    for [frames * 2] nested calls. *)
Theorem frameTotal_stack_independent (stack stack' frames : nat) (strike : Z)
    (input : array) :
  exhausted input (frames * 2 + 1) ->
  (frames * 2 <= stack)%nat -> (frames * 2 <= stack')%nat ->
  frameTotal stack frames strike input = frameTotal stack' frames strike input.
Proof.
  intros Hend Hstack Hstack'. rewrite !frameTotal_scores. do 2 f_equal.
  unfold first_slots. rewrite <- !list_fmap_compose.
  apply list_fmap_ext. intros k t _. simpl.
  apply frame_score_enough; try done. lia.
Qed.

Lemma frameTotal_stack_independent_witness :
  frameTotal 4 2 10 (throws_of [Num 10; NaN; NaN; NaN; Num 3])
    = frameTotal 500 2 10 (throws_of [Num 10; NaN; NaN; NaN; Num 3]).
Proof.
  apply (frameTotal_stack_independent 4 500 2 10
           (throws_of [Num 10; NaN; NaN; NaN; Num 3])); [|simpl; lia..].
  apply exhausted_throws_of. intros i Hi.
  destruct i as [|[|[|[|[|i]]]]]; simpl in Hi; try lia; reflexivity.
Defined.

(** * Further properties of the frame row *)

(** X15.  The total is all or nothing: with every frame complete it is
    the sum of the subtotals, and with one frame incomplete it is [NaN]
    and its cell is blank. *)
Theorem total_all_or_nothing (subtotal : list number) :
  (complete subtotal ->
     total subtotal = Num (recorded_sum subtotal)
     /\ total_cell subtotal = Shown (Num (recorded_sum subtotal)))
  /\ (NaN ∈ subtotal ->
      total subtotal = NaN /\ total_cell subtotal = Blank).
Proof.
  unfold total_cell, total. rewrite total_from. split.
  - intros Hcomplete. by rewrite decide_True.
  - intros Hnan. rewrite decide_False; [done|].
    intros Hcomplete. unfold complete in Hcomplete.
    rewrite Forall_forall in Hcomplete. by apply Hcomplete in Hnan.
Qed.

Lemma total_all_or_nothing_witness :
  total [Num 9; Num 20; Num 7] = Num 36 /\ total_cell [Num 9; NaN] = Blank.
Proof.
  split.
  - apply (proj1 (total_all_or_nothing [Num 9; Num 20; Num 7])).
    repeat constructor.
  - apply (proj2 (total_all_or_nothing [Num 9; NaN])).
    apply list_elem_of_In. simpl. tauto.
Defined.

(** X16.  When every frame is complete, the cell of the last frame shows
    the total. *)
Theorem cumulative_last_is_total (subtotal : list number) (k : nat) :
  complete subtotal ->
  length subtotal = S k ->
  cumulative_row (length subtotal) subtotal !! k
    = Some (Shown (total subtotal))
  /\ total_cell subtotal = Shown (total subtotal).
Proof.
  intros Hcomplete Hlength. unfold total_cell, total. rewrite total_from.
  rewrite decide_True by done. simpl. split; [|done].
  unfold cumulative_row. rewrite cumulative_loop by done. simpl.
  rewrite list_lookup_fmap, lookup_seq_lt by lia. simpl.
  unfold cumulative_cell_of, at_index.
  destruct (lookup_lt_is_Some_2 subtotal k ltac:(lia)) as [v Hv].
  rewrite Hv. unfold complete in Hcomplete.
  rewrite Forall_forall in Hcomplete.
  rewrite (Hcomplete v) by (by eapply list_elem_of_lookup_2).
  by rewrite <- Hlength, firstn_all.
Qed.

Lemma cumulative_last_is_total_witness :
  cumulative_row 3 [Num 9; Num 20; Num 7] !! 2%nat = Some (Shown (Num 36)).
Proof.
  apply (cumulative_last_is_total [Num 9; Num 20; Num 7] 2); [|reflexivity].
  repeat constructor.
Defined.

(** * Whole games *)

Lemma throws_of_lookup (l : list number) (i : nat) :
  throws_of l !! i = if decide (i = 0)%nat then None else l !! (i - 1)%nat.
Proof.
  unfold throws_of.
  destruct (list_to_map (zip (seq 1 (length l)) l) !! i) as [v|] eqn:Hv.
  - apply elem_of_list_to_map_2, elem_of_lookup_zip_with in Hv
      as (k & i' & v' & [= <- <-] & Hk & Hv).
    apply lookup_seq in Hk as [-> _]. case_decide; [lia|].
    by replace (1 + k - 1)%nat with k by lia.
  - apply not_elem_of_list_to_map_2 in Hv.
    rewrite fst_zip in Hv by (rewrite length_seq; lia).
    case_decide; [done|]. symmetry. apply lookup_ge_None.
    destruct (decide (length l <= i - 1)%nat); [done|].
    exfalso. apply Hv, elem_of_seq. lia.
Qed.

Lemma throws_from_lookup (n : nat) (f : nat -> number) (i : nat) :
  throws_from n f !! i
    = if decide (1 <= i <= n)%nat then Some (f i) else None.
Proof.
  unfold throws_from. rewrite throws_of_lookup.
  case_decide.
  - case_decide; [lia | done].
  - rewrite list_lookup_fmap. case_decide.
    + rewrite lookup_seq_lt by lia. simpl. f_equal. f_equal. lia.
    + by rewrite lookup_seq_ge by lia.
Qed.

Lemma get_throws_from (n : nat) (f : nat -> number) (i : nat) :
  get (throws_from n f) i = if decide (1 <= i <= n)%nat then f i else NaN.
Proof. unfold get. rewrite throws_from_lookup. by case_decide. Qed.

Lemma map_first_slots (frames : nat) (value : nat -> number) (v : number) :
  (forall k, (k < frames)%nat -> value (2 * k + 1)%nat = v) ->
  map value (first_slots frames) = replicate frames v.
Proof.
  intros Hscore. unfold first_slots. apply list_eq. intros k.
  rewrite !list_lookup_fmap.
  destruct (decide (k < frames)%nat).
  - rewrite lookup_seq_lt, lookup_replicate_2 by done. simpl.
    f_equal. by rewrite <- (Hscore k) by done.
  - rewrite lookup_seq_ge by lia. simpl. symmetry.
    apply lookup_replicate_None. lia.
Qed.

Lemma recorded_sum_replicate (n : nat) (z : Z) :
  recorded_sum (replicate n (Num z)) = z * Z.of_nat n.
Proof. induction n as [|n IH]; simpl; [lia|]. rewrite IH. lia. Qed.

Lemma complete_replicate (n : nat) (z : Z) : complete (replicate n (Num z)).
Proof. unfold complete. apply Forall_replicate. done. Qed.

Lemma total_replicate (n : nat) (z : Z) :
  total (replicate n (Num z)) = Num (z * Z.of_nat n).
Proof.
  unfold total. rewrite total_from.
  rewrite decide_True by apply complete_replicate.
  by rewrite recorded_sum_replicate.
Qed.

Lemma get_perfect_game (frames : nat) (strike : Z) (i : nat) :
  get (perfect_game frames strike) i
    = if decide ((1 <= i <= frames * 2 + 1)%nat
                 /\ ((i mod 2 = 1)%nat \/ (frames * 2 <= i)%nat))
      then Num strike else NaN.
Proof.
  unfold perfect_game. rewrite get_throws_from.
  destruct (i mod 2 =? 1)%nat eqn:Hodd;
    [apply Nat.eqb_eq in Hodd|apply Nat.eqb_neq in Hodd];
    (destruct (frames * 2 <=? i)%nat eqn:Hend;
       [apply Nat.leb_le in Hend|apply Nat.leb_gt in Hend]);
    cbn [orb]; repeat case_decide; try done; lia.
Qed.

Lemma legal_perfect_game (frames : nat) (strike : Z) :
  0 <= strike -> legal frames strike (perfect_game frames strike).
Proof.
  intros Hstrike. split; [|split].
  - intros j Hj. unfold perfect_game. rewrite throws_from_lookup.
    rewrite decide_True by done. eexists. split; [done|].
    intros z. destruct (_ || _); [|done]. intros [= <-]. lia.
  - intros frame x Hframe. rewrite !get_perfect_game.
    repeat case_decide; try lia; try done.
  - intros x y. rewrite !get_perfect_game.
    repeat case_decide; try done. intros [= <-] [= <-]. lia.
Qed.

Lemma frame_score_perfect_game (stack frames : nat) (strike : Z) (k : nat) :
  (2 <= stack)%nat -> (k < frames)%nat ->
  frame_score stack frames strike (perfect_game frames strike) (2 * k + 1)
    = Num (3 * strike).
Proof.
  intros Hstack Hk.
  set (input := perfect_game frames strike).
  assert (forall i, (1 <= i <= frames * 2 + 1)%nat ->
            (i mod 2 = 1)%nat \/ (frames * 2 <= i)%nat ->
            get input i = Num strike) as Hstrike
    by (intros i Hi Hi'; unfold input; rewrite get_perfect_game;
        by rewrite decide_True).
  assert (forall i, (i mod 2 = 0)%nat -> (i < frames * 2)%nat ->
            get input i = NaN) as Hnone
    by (intros i Hi Hi'; unfold input; rewrite get_perfect_game;
        rewrite decide_False; [done | lia]).
  assert (forall p j, (p < j)%nat -> (1 <= j <= frames * 2 + 1)%nat ->
            (j mod 2 = 1)%nat \/ (frames * 2 <= j)%nat ->
            (forall i, (p < i < j)%nat ->
               (i mod 2 = 0)%nat /\ (i < frames * 2)%nat) ->
            next_recorded input p j) as Hnext.
  { intros p j Hp Hj Hj' Hskip. split; [done|]. split.
    - by rewrite Hstrike.
    - intros i Hi. apply Hnone; by apply Hskip. }
  replace (3 * strike) with (strike + Z.min strike strike + Z.min strike strike)
    by lia.
  destruct (decide (k + 1 < frames)%nat) as [Hinner|Hlast].
  - destruct (decide (k + 2 < frames)%nat) as [Hinner'|Hlast'].
    + apply (frame_score_strike stack frames strike input _
               (2 * k + 3) (2 * k + 5) strike);
        try (apply Hstrike; lia); try lia; apply Hnext; lia.
    + apply (frame_score_strike stack frames strike input _
               (2 * k + 3) (2 * k + 4) strike);
        try (apply Hstrike; lia); try lia; apply Hnext; lia.
  - apply (frame_score_strike stack frames strike input _
             (2 * k + 2) (2 * k + 3) strike);
      try (apply Hstrike; lia); try lia; apply Hnext; lia.
Qed.

(** X17.  A perfect game, for every frame count and strike value: the
    validator leaves it as it is, every frame scores three times the
    strike value and the total is [3 * strike * frames], the bound of
    X13. *)
Theorem perfect_game_score (stack frames : nat) (strike : Z) :
  (1 <= frames)%nat -> 0 <= strike -> (2 <= stack)%nat ->
  let input := perfect_game frames strike in
  validate frames strike input = input
  /\ frameTotal stack frames strike input
       = (input, Return (replicate frames (Num (3 * strike))))
  /\ total (replicate frames (Num (3 * strike)))
       = Num (3 * strike * Z.of_nat frames).
Proof.
  intros Hframes Hstrike Hstack input. split; [|split].
  - by apply validate_legal_fixed, legal_perfect_game.
  - rewrite frameTotal_scores. do 2 f_equal. apply map_first_slots.
    intros k Hk. by apply frame_score_perfect_game.
  - apply total_replicate.
Qed.

Lemma perfect_game_score_witness :
  frameTotal 2 12 10 (perfect_game 12 10)
    = (perfect_game 12 10, Return (replicate 12 (Num 30))).
Proof. apply (perfect_game_score 2 12 10); lia. Defined.

Lemma get_validate_gutter_game (frames : nat) (strike : Z) (i : nat) :
  (1 <= frames)%nat -> 0 < strike ->
  get (validate frames strike (gutter_game frames)) i
    = if decide (1 <= i <= frames * 2)%nat then Num 0 else NaN.
Proof.
  intros Hframes Hstrike.
  assert (forall j, (1 <= j <= frames * 2 + 1)%nat ->
            gutter_game frames !! j = Some (Num 0)) as Hslot
    by (intros j Hj; unfold gutter_game; rewrite throws_from_lookup;
        by rewrite decide_True).
  assert (forall j, (1 <= j <= frames * 2 + 1)%nat ->
            get (gutter_game frames) j = Num 0) as Hget
    by (intros j Hj; unfold get; by rewrite Hslot).
  assert (clamp_value strike (Num 0) = Num 0) as Hclamp
    by (apply clamp_value_fixed; lia).
  assert (repaired strike (Num 0) (Some (Num 0)) = Some (Num 0)) as Hrepaired.
  { unfold repaired. simpl.
    replace (strike <=? 0) with false by (symmetry; apply Z.leb_gt; lia).
    by replace (strike <? 0 + 0) with false
      by (symmetry; apply Z.ltb_ge; lia). }
  pose proof (validate_lookup_last frames strike (gutter_game frames) Hframes)
    as Hend.
  cbv zeta in Hend. rewrite !Hget, !Hslot, Hclamp in Hend by lia.
  simpl in Hend.
  replace (0 + 0 <? strike) with true in Hend
    by (symmetry; apply Z.ltb_lt; lia).
  replace (strike <? 0) with false in Hend
    by (symmetry; apply Z.ltb_ge; lia).
  destruct Hend as [Hsecond Hbonus].
  unfold get. case_decide as Hi.
  - destruct (decide (i = frames * 2)%nat) as [->|Hne].
    { by rewrite Hsecond, Hrepaired. }
    destruct (decide (i mod 2 = 1)%nat) as [Hodd|Heven].
    + rewrite validate_lookup_first, Hslot by lia.
      cbn [fmap option_fmap option_map default]. by rewrite Hclamp.
    + assert (exists frame, (1 <= frame < frames)%nat /\ i = (frame * 2)%nat)
        as (frame & Hframe & ->) by (exists (i / 2)%nat; lia).
      rewrite validate_lookup_second, Hget, Hslot by lia.
      cbn [fmap option_fmap option_map]. by rewrite Hclamp, Hrepaired.
  - destruct (decide (i = frames * 2 + 1)%nat) as [->|Hne];
      [by rewrite Hbonus|].
    rewrite validate_lookup_outside by lia.
    unfold gutter_game. rewrite throws_from_lookup.
    by rewrite decide_False by lia.
Qed.

(** X18.  A game of gutters, for every frame count and every positive
    strike value: once validated (which empties the bonus slot) every
    frame scores 0 whatever the stack, the total is 0, and the throws
    show "G" in the first slot and "-" in the second slot of each frame,
    with nothing in the bonus slot. *)
Theorem gutter_game_score (stack frames : nat) (strike : Z) :
  (1 <= frames)%nat -> 0 < strike ->
  let input := validate frames strike (gutter_game frames) in
  frameTotal stack frames strike input
    = (input, Return (replicate frames (Num 0)))
  /\ total (replicate frames (Num 0)) = Num 0
  /\ (forall frame, (1 <= frame <= frames)%nat ->
        throwString frames strike input (frame * 2 - 1) = "G"
        /\ throwString frames strike input (frame * 2) = "-")
  /\ throwString frames strike input (frames * 2 + 1) = "&nbsp;".
Proof.
  intros Hframes Hstrike input.
  pose proof (get_validate_gutter_game frames strike) as Hget.
  assert ((strike <=? 0) = false) as Hge by (apply Z.leb_gt; lia).
  split; [|split; [|split]].
  - rewrite frameTotal_scores. do 2 f_equal. apply map_first_slots.
    intros k Hk. change (Num 0) with (Num (0 + 0)).
    apply frame_score_open; try lia; fold input; unfold input;
      rewrite Hget by done; by rewrite decide_True by lia.
  - by rewrite total_replicate.
  - intros frame Hframe. unfold throwString, input.
    assert (forall i, (1 <= i <= frames * 2)%nat ->
              get (validate frames strike (gutter_game frames)) i = Num 0)
      as Hzero by (intros i Hi; rewrite Hget by done; by rewrite decide_True).
    split.
    + rewrite (Hzero (frame * 2 - 1)%nat) by lia.
      replace ((frame * 2 - 1) mod 2 =? 1)%nat with true
        by (symmetry; apply Nat.eqb_eq; lia).
      cbn [JS.isNaN JS.ge JS.strict_eq orb Z.eqb]. by rewrite Hge.
    + rewrite (Hzero (frame * 2)%nat), (Hzero (frame * 2 - 1)%nat) by lia.
      replace ((frame * 2) mod 2 =? 1)%nat with false
        by (symmetry; apply Nat.eqb_neq; lia).
      cbn [JS.isNaN JS.ge JS.add JS.strict_eq orb Z.eqb].
      change (0 + 0) with 0. by rewrite Hge, andb_false_r.
  - unfold throwString, input. rewrite Hget by done.
    by rewrite decide_False by lia.
Qed.

Lemma gutter_game_score_witness :
  let input := validate 10 10 (gutter_game 10) in
  frameTotal 0 10 10 input = (input, Return (replicate 10 (Num 0))).
Proof. intros input. apply (gutter_game_score 0 10 10); lia. Defined.

(** * Further properties of the glyphs *)

Lemma pretty_N_go_not_blank (x : N) (s : string) :
  starts_blank s = false -> starts_blank (pretty_N_go x s) = false.
Proof.
  revert s. induction (N.lt_wf_0 x) as [x _ IH]; intros s Hs.
  assert (x = 0 \/ 0 < x)%N as [->|Hx] by lia.
  - by rewrite pretty_N_go_0.
  - rewrite pretty_N_go_step by done. apply IH.
    { by apply N.div_lt. }
    unfold pretty_N_char. by repeat case_match.
Qed.

Lemma pretty_Z_not_blank (z : Z) : starts_blank (pretty z) = false.
Proof.
  destruct z as [|x|x]; [done| |done].
  unfold pretty, pretty_Z, pretty, pretty_positive, pretty, pretty_N.
  case_decide; [done|]. by apply pretty_N_go_not_blank.
Qed.

(** X19.  A slot shows the blank glyph exactly when it holds no recorded
    throw: a recorded throw, whatever its value, shows "X", "G", "/",
    "-" or its numeral. *)
Theorem throwString_blank (frames : nat) (strike : Z) (input : array)
    (throws : nat) :
  throwString frames strike input throws = "&nbsp;"
    <-> get input throws = NaN.
Proof.
  unfold throwString. split.
  - destruct (get input throws) as [v|]; [|done].
    cbn [JS.isNaN JS.toString].
    assert (pretty v ≠ "&nbsp;") as Hv.
    { intros H. pose proof (pretty_Z_not_blank v) as Hblank.
      by rewrite H in Hblank. }
    by repeat case_match.
  - by intros ->.
Qed.

(** * Facts about the table and the listeners *)

Lemma blank_range_lookup (input : array) (start len i : nat) :
  foldl (fun input slot => <[slot := NaN]> input) input (seq start len) !! i
    = if decide (start <= i < start + len)%nat then Some NaN else input !! i.
Proof.
  revert input start. induction len as [|len IH]; intros input start; simpl.
  - case_decide; [lia | done].
  - rewrite IH, lookup_insert. repeat case_decide; try done; lia.
Qed.

Lemma blank_throws_lookup (frames i : nat) :
  blank_throws frames !! i
    = if decide (1 <= i <= frames * 2 + 1)%nat then Some NaN else None.
Proof.
  unfold blank_throws. rewrite blank_range_lookup, lookup_empty.
  repeat case_decide; try done; lia.
Qed.

Lemma get_blank_throws (frames i : nat) : get (blank_throws frames) i = NaN.
Proof. unfold get. rewrite blank_throws_lookup. by case_decide. Qed.

Lemma validate_blank_throws (frames : nat) (strike : Z) :
  validate frames strike (blank_throws frames) = blank_throws frames.
Proof.
  apply validate_legal_fixed. split; [|split].
  - intros j Hj. rewrite blank_throws_lookup, decide_True by done.
    eexists. split; [done|]. intros z Hz. discriminate Hz.
  - intros frame x _. by rewrite get_blank_throws.
  - intros x y. by rewrite get_blank_throws.
Qed.

Lemma cumulative_row_blank (frames : nat) :
  cumulative_row frames (replicate frames NaN) = replicate frames Blank.
Proof.
  unfold cumulative_row.
  rewrite cumulative_loop by (by rewrite length_replicate). simpl.
  apply list_eq. intros k.
  rewrite list_lookup_fmap.
  destruct (decide (k < frames)%nat).
  - rewrite lookup_seq_lt, lookup_replicate_2 by done. simpl.
    unfold cumulative_cell_of, at_index.
    by rewrite lookup_replicate_2.
  - rewrite lookup_seq_ge by lia. symmetry.
    apply lookup_replicate_None. lia.
Qed.

Lemma draw_player_some (stack frames : nat) (strike : Z) (s : score) :
  draw_player stack frames strike s
    = Some (validated_score frames strike s,
            let input := validate frames strike (throws s) in
            let subtotal :=
              map (frame_score stack frames strike input)
                (first_slots frames) in
            Row (name s)
              (map (throwString frames strike input)
                 (seq 1 (frames * 2 + 1)))
              (zip (map (colspan frames) (seq 1 frames))
                 (cumulative_row frames subtotal))
              (total_cell subtotal)).
Proof. unfold draw_player. by rewrite frameTotal_scores. Qed.

Lemma draw_player_blank (stack frames : nat) (strike : Z) (n : string) :
  (1 <= frames)%nat ->
  draw_player stack frames strike (Score n (blank_throws frames))
    = Some (Score n (blank_throws frames), blank_row frames n).
Proof.
  intros Hframes. rewrite draw_player_some. unfold validated_score. simpl.
  rewrite validate_blank_throws. do 2 f_equal. unfold blank_row.
  assert (map (frame_score stack frames strike (blank_throws frames))
            (first_slots frames) = replicate frames NaN) as ->.
  { apply map_first_slots. intros k Hk.
    apply frame_score_missing; rewrite get_blank_throws; [done | by left]. }
  f_equal.
  - apply list_eq. intros k. rewrite list_lookup_fmap.
    destruct (decide (k < frames * 2 + 1)%nat).
    + rewrite lookup_seq_lt, lookup_replicate_2 by done. simpl.
      unfold throwString. by rewrite get_blank_throws.
    + rewrite lookup_seq_ge by lia. symmetry.
      apply lookup_replicate_None. lia.
  - by rewrite cumulative_row_blank.
  - unfold total_cell, total. rewrite total_from.
    rewrite decide_False; [done|].
    intros Hcomplete. unfold complete in Hcomplete.
    rewrite Forall_forall in Hcomplete.
    specialize (Hcomplete NaN). simpl in Hcomplete.
    assert (NaN ∈ replicate frames NaN) as Hin
      by (apply elem_of_replicate; split; [done | lia]).
    by apply Hcomplete in Hin.
Qed.

Lemma drawScoreTable_some (stack frames : nat) (strike : Z)
    (scores : gmap nat score) (s1 s2 : score) :
  scores !! 1%nat = Some s1 -> scores !! 2%nat = Some s2 ->
  exists r1 r2,
    draw_player stack frames strike s1
      = Some (validated_score frames strike s1, r1)
    /\ draw_player stack frames strike s2
      = Some (validated_score frames strike s2, r2)
    /\ drawScoreTable stack frames strike scores
      = Some (<[2%nat := validated_score frames strike s2]>
                (<[1%nat := validated_score frames strike s1]> scores),
              [r1; r2]).
Proof.
  intros H1 H2. eexists _, _.
  split; [apply draw_player_some|]. split; [apply draw_player_some|].
  unfold drawScoreTable, players. simpl.
  rewrite H1, draw_player_some.
  rewrite lookup_insert_ne, H2, draw_player_some by done. done.
Qed.

Lemma drawScoreTable_none (stack frames : nat) (strike : Z)
    (scores : gmap nat score) :
  scores !! 1%nat = None \/ scores !! 2%nat = None ->
  drawScoreTable stack frames strike scores = None.
Proof.
  unfold drawScoreTable, players. simpl.
  destruct (scores !! 1%nat) as [s1|] eqn:H1; [|done].
  intros [?|H2]; [done|].
  rewrite draw_player_some. by rewrite lookup_insert_ne, H2 by done.
Qed.

Lemma resetScores_lookup (frames : nat) (scores : gmap nat score)
    (player : nat) :
  resetScores frames scores !! player
    = if decide (1 <= player <= players)%nat
      then Some (Score ("Player " +:+ pretty player) (blank_throws frames))
      else scores !! player.
Proof.
  unfold resetScores, players. simpl. rewrite !lookup_insert.
  repeat case_decide; try lia; by subst.
Qed.

Lemma handle_some_inv (stack frames : nat) (strike : Z)
    (scores scores' : gmap nat score) (e : event) (rows : list row) :
  handle stack frames strike scores e = Some (scores', rows) ->
  exists before s1 s2 r1 r2,
    before !! 1%nat = Some s1 /\ before !! 2%nat = Some s2
    /\ draw_player stack frames strike s1
        = Some (validated_score frames strike s1, r1)
    /\ draw_player stack frames strike s2
        = Some (validated_score frames strike s2, r2)
    /\ scores' = <[2%nat := validated_score frames strike s2]>
                   (<[1%nat := validated_score frames strike s1]> before)
    /\ rows = [r1; r2]
    /\ before
       = match e with
         | ThrowBlur player throwIndex value =>
             match scores !! player with
             | Some s =>
                 <[player := Score (name s)
                               (<[throwIndex := value]> (throws s))]> scores
             | None => scores
             end
         | NameBlur player value =>
             match scores !! player with
             | Some s => <[player := Score value (throws s)]> scores
             | None => scores
             end
         | Submit => resetScores frames scores
         end.
Proof.
  intros Hhandle.
  assert (forall before,
            drawScoreTable stack frames strike before = Some (scores', rows) ->
            exists s1 s2 r1 r2,
              before !! 1%nat = Some s1 /\ before !! 2%nat = Some s2
              /\ draw_player stack frames strike s1
                  = Some (validated_score frames strike s1, r1)
              /\ draw_player stack frames strike s2
                  = Some (validated_score frames strike s2, r2)
              /\ scores' = <[2%nat := validated_score frames strike s2]>
                             (<[1%nat := validated_score frames strike s1]>
                                before)
              /\ rows = [r1; r2]) as Hdraw.
  { intros before Hbefore.
    destruct (before !! 1%nat) as [s1|] eqn:H1;
      [|by rewrite drawScoreTable_none in Hbefore by (by left)].
    destruct (before !! 2%nat) as [s2|] eqn:H2;
      [|by rewrite drawScoreTable_none in Hbefore by (by right)].
    destruct (drawScoreTable_some stack frames strike before s1 s2 H1 H2)
      as (r1 & r2 & Hr1 & Hr2 & Hsome).
    rewrite Hsome in Hbefore. injection Hbefore as <- <-.
    by exists s1, s2, r1, r2. }
  destruct e as [player throwIndex value|player value|]; simpl in Hhandle.
  - destruct (scores !! player) as [s|]; [|done].
    destruct (Hdraw _ Hhandle) as (s1 & s2 & r1 & r2 & H).
    eexists _, s1, s2, r1, r2. by do 6 (split; [apply H|]).
  - destruct (scores !! player) as [s|]; [|done].
    destruct (Hdraw _ Hhandle) as (s1 & s2 & r1 & r2 & H).
    eexists _, s1, s2, r1, r2. by do 6 (split; [apply H|]).
  - destruct (Hdraw _ Hhandle) as (s1 & s2 & r1 & r2 & H).
    eexists _, s1, s2, r1, r2. by do 6 (split; [apply H|]).
Qed.

Lemma players_cases (player : nat) :
  (1 <= player <= players)%nat -> player = 1%nat \/ player = 2%nat.
Proof. unfold players. lia. Qed.

(** * Properties of the table and the listeners *)

(** X20.  Submitting the settings starts a new game whatever [scores]
    held, even nothing: each player is named "Player" and its number and
    has no throw recorded, and with at least one frame every cell of the
    table is blank. *)
Theorem submit_blank_table (stack frames : nat) (strike : Z)
    (scores : gmap nat score) :
  (1 <= frames)%nat ->
  handle stack frames strike scores Submit
    = Some (resetScores frames scores,
            [blank_row frames "Player 1"; blank_row frames "Player 2"])
  /\ forall player, (1 <= player <= players)%nat ->
       resetScores frames scores !! player
         = Some (Score ("Player " +:+ pretty player) (blank_throws frames)).
Proof.
  intros Hframes. split.
  - simpl.
    pose proof (resetScores_lookup frames scores 1) as H1.
    pose proof (resetScores_lookup frames scores 2) as H2.
    rewrite decide_True in H1 by (unfold players; lia).
    rewrite decide_True in H2 by (unfold players; lia).
    destruct (drawScoreTable_some stack frames strike _ _ _ H1 H2)
      as (r1 & r2 & Hr1 & Hr2 & ->).
    rewrite draw_player_blank in Hr1, Hr2 by done.
    injection Hr1 as _ <-. injection Hr2 as _ <-.
    unfold validated_score. cbn [name throws].
    rewrite validate_blank_throws.
    rewrite (insert_id (resetScores frames scores) 1%nat) by exact H1.
    by rewrite (insert_id (resetScores frames scores) 2%nat) by exact H2.
  - intros player Hplayer. rewrite resetScores_lookup.
    by rewrite decide_True.
Qed.

Lemma submit_blank_table_witness :
  start 0 10 10
    = Some (resetScores 10 ∅,
            [blank_row 10 "Player 1"; blank_row 10 "Player 2"]).
Proof. apply (submit_blank_table 0 10 10 ∅). lia. Defined.



(** X22.  After a listener has run, the throws [scores] holds for each
    player are validated for the frame count and the strike value it ran
    with: validating them again changes nothing. *)
Theorem handle_validated (stack frames : nat) (strike : Z)
    (scores scores' : gmap nat score) (e : event) (rows : list row)
    (player : nat) (s : score) :
  handle stack frames strike scores e = Some (scores', rows) ->
  (1 <= player <= players)%nat ->
  scores' !! player = Some s ->
  validate frames strike (throws s) = throws s.
Proof.
  intros (before & s1 & s2 & r1 & r2 & H1 & H2 & _ & _ & -> & _ & _)
           %handle_some_inv Hplayer Hs.
  apply players_cases in Hplayer as [-> | ->]; simplify_map_eq;
    apply map_eq, validate_validate_lookup.
Qed.

Lemma handle_validated_witness :
  exists scores' rows s,
    handle 3 2 10 (resetScores 2 ∅) (ThrowBlur 1 2 (Num 70))
      = Some (scores', rows)
    /\ scores' !! 1%nat = Some s
    /\ validate 2 10 (throws s) = throws s.
Proof.
  eexists _, _, _. split; [vm_compute; reflexivity|].
  split; [vm_compute; reflexivity|].
  eapply (handle_validated 3 2 10 (resetScores 2 ∅) _
            (ThrowBlur 1 2 (Num 70)) _ 1);
    [vm_compute; reflexivity | unfold players; lia | vm_compute; reflexivity].
Defined.

(** X23.  Leaving a throw field of one player leaves every other player
    as it was, provided that player's throws were already validated for
    the frame count and the strike value in force (as they are after any
    listener has run with them, X22). *)
Theorem throw_blur_other_player (stack frames : nat) (strike : Z)
    (scores scores' : gmap nat score) (rows : list row)
    (player throwIndex : nat) (value : number) (other : nat) (s : score) :
  handle stack frames strike scores (ThrowBlur player throwIndex value)
    = Some (scores', rows) ->
  other ≠ player ->
  scores !! other = Some s ->
  validate frames strike (throws s) = throws s ->
  scores' !! other = Some s.
Proof.
  intros Hhandle Hother Hs Hvalid.
  assert (validated_score frames strike s = s) as Hfixed
    by (unfold validated_score; rewrite Hvalid; by destruct s).
  destruct (scores !! player) as [sp|] eqn:Hplayer;
    [|simpl in Hhandle; by rewrite Hplayer in Hhandle].
  apply handle_some_inv in Hhandle
    as (before & s1 & s2 & r1 & r2 & H1 & H2 & _ & _ & -> & _ & ->).
  rewrite Hplayer in H1, H2 |- *.
  assert (<[player := Score (name sp) (<[throwIndex := value]> (throws sp))]>
            scores !! other = Some s) as Hbefore
    by (by rewrite lookup_insert_ne).
  destruct (decide (other = 2%nat)) as [->|Hne2].
  { rewrite lookup_insert_eq. rewrite Hbefore in H2. injection H2 as <-.
    by rewrite Hfixed. }
  rewrite lookup_insert_ne by done.
  destruct (decide (other = 1%nat)) as [->|Hne1].
  { rewrite lookup_insert_eq. rewrite Hbefore in H1. injection H1 as <-.
    by rewrite Hfixed. }
  by rewrite lookup_insert_ne.
Qed.

Lemma throw_blur_other_player_witness :
  exists scores' rows,
    handle 3 2 10 (resetScores 2 ∅) (ThrowBlur 1 1 (Num 7))
      = Some (scores', rows)
    /\ scores' !! 2%nat = Some (Score "Player 2" (blank_throws 2)).
Proof.
  eexists _, _. split; [vm_compute; reflexivity|].
  eapply (throw_blur_other_player 3 2 10 (resetScores 2 ∅) _ _ 1 1 (Num 7) 2);
    [vm_compute; reflexivity | lia | vm_compute; reflexivity
    | vm_compute; reflexivity].
Defined.

(** X24.  Leaving a throw field stores the value in the slot of the
    field, validates the throws of that player and shows them: [scores]
    then holds the validated array under the same name, and the rows of
    the player show the glyphs, the subtotals and the total of exactly
    that array. *)
Theorem throw_blur_stored (stack frames : nat) (strike : Z)
    (scores scores' : gmap nat score) (rows : list row)
    (player throwIndex : nat) (value : number) (s : score) :
  handle stack frames strike scores (ThrowBlur player throwIndex value)
    = Some (scores', rows) ->
  (1 <= player <= players)%nat ->
  scores !! player = Some s ->
  let stored := validate frames strike (<[throwIndex := value]> (throws s)) in
  scores' !! player = Some (Score (name s) stored)
  /\ exists r subtotal,
       rows !! (player - 1)%nat = Some r
       /\ row_name r = name s
       /\ row_throws r
          = map (throwString frames strike stored) (seq 1 (frames * 2 + 1))
       /\ frameTotal stack frames strike stored = (stored, Return subtotal)
       /\ row_frames r
          = zip (map (colspan frames) (seq 1 frames))
              (cumulative_row frames subtotal)
       /\ row_total r = total_cell subtotal.
Proof.
  intros Hhandle Hplayer Hs stored.
  apply handle_some_inv in Hhandle
    as (before & s1 & s2 & r1 & r2 & H1 & H2 & Hr1 & Hr2 & -> & -> & ->).
  rewrite Hs in H1, H2 |- *.
  rewrite draw_player_some in Hr1, Hr2.
  injection Hr1 as <-. injection Hr2 as <-.
  apply players_cases in Hplayer as [-> | ->].
  - rewrite lookup_insert_eq in H1. injection H1 as <-.
    rewrite lookup_insert_ne, lookup_insert_eq by done.
    split; [done|]. eexists _, _. split; [done|].
    cbn [row_name row_throws row_frames row_total name throws].
    fold stored. by rewrite frameTotal_scores.
  - rewrite lookup_insert_eq in H2. injection H2 as <-.
    rewrite lookup_insert_eq.
    split; [done|]. eexists _, _. split; [done|].
    cbn [row_name row_throws row_frames row_total name throws].
    fold stored. by rewrite frameTotal_scores.
Qed.

Lemma throw_blur_stored_witness :
  exists scores' rows,
    handle 3 2 10 (resetScores 2 ∅) (ThrowBlur 1 1 (Num 70))
      = Some (scores', rows)
    /\ scores' !! 1%nat
       = Some (Score "Player 1"
                 (validate 2 10 (<[1%nat := Num 70]> (blank_throws 2)))).
Proof.
  eexists _, _. split; [vm_compute; reflexivity|].
  eapply (throw_blur_stored 3 2 10 (resetScores 2 ∅) _ _ 1 1 (Num 70)
            (Score "Player 1" (blank_throws 2)));
    [vm_compute; reflexivity | unfold players; lia | vm_compute; reflexivity].
Defined.

(** X25.  Leaving a name field changes the name [scores] holds for that
    player and nothing else in [scores], when the throws of every player
    were already validated for the frame count and the strike value in
    force. *)
Theorem name_blur_only_name (stack frames : nat) (strike : Z)
    (scores scores' : gmap nat score) (rows : list row)
    (player : nat) (value : string) (s : score) :
  handle stack frames strike scores (NameBlur player value)
    = Some (scores', rows) ->
  (1 <= player <= players)%nat ->
  scores !! player = Some s ->
  (forall q sq, (1 <= q <= players)%nat -> scores !! q = Some sq ->
     validate frames strike (throws sq) = throws sq) ->
  scores' = <[player := Score value (throws s)]> scores.
Proof.
  intros Hhandle Hplayer Hs Hvalid.
  apply handle_some_inv in Hhandle
    as (before & s1 & s2 & r1 & r2 & H1 & H2 & _ & _ & -> & _ & ->).
  rewrite Hs in H1, H2 |- *.
  assert (forall q sq, (1 <= q <= players)%nat ->
            <[player := Score value (throws s)]> scores !! q = Some sq ->
            validated_score frames strike sq = sq) as Hfixed.
  { intros q sq Hq. rewrite lookup_insert. case_decide as Heq.
    - intros [= <-]. unfold validated_score. cbn [name throws].
      by rewrite (Hvalid player s).
    - intros Hsq. unfold validated_score.
      rewrite (Hvalid q sq) by done. by destruct sq. }
  rewrite (Hfixed 1%nat s1), (Hfixed 2%nat s2)
    by (done || unfold players; lia).
  rewrite (insert_id _ 1%nat s1) by done.
  by rewrite (insert_id _ 2%nat s2) by done.
Qed.

Lemma name_blur_only_name_witness :
  exists scores' rows,
    handle 3 2 10 (resetScores 2 ∅) (NameBlur 2 "Ada")
      = Some (scores', rows)
    /\ scores' = <[2%nat := Score "Ada" (blank_throws 2)]> (resetScores 2 ∅).
Proof.
  eexists _, _. split; [vm_compute; reflexivity|].
  eapply (name_blur_only_name 3 2 10 (resetScores 2 ∅) _ _ 2 "Ada"
            (Score "Player 2" (blank_throws 2)));
    [vm_compute; reflexivity | unfold players; lia | vm_compute; reflexivity|].
  intros q sq Hq. rewrite resetScores_lookup, decide_True by done.
  intros [= <-]. apply validate_blank_throws.
Defined.

Lemma colspan_sum (frames : nat) :
  (1 <= frames)%nat ->
  sum_list (map (colspan frames) (seq 1 frames)) = (frames * 2 + 1)%nat.
Proof.
  intros Hframes. destruct frames as [|n]; [lia|].
  rewrite seq_S, map_app, sum_list_with_app. simpl.
  assert (map (colspan (S n)) (seq 1 n) = replicate n 2%nat) as ->.
  { apply list_eq. intros k. rewrite list_lookup_fmap.
    destruct (decide (k < n)%nat).
    - rewrite lookup_seq_lt, lookup_replicate_2 by done. simpl.
      unfold colspan.
      by replace (S k =? S n)%nat with false
        by (symmetry; apply Nat.eqb_neq; lia).
    - rewrite lookup_seq_ge by lia. symmetry.
      apply lookup_replicate_None. lia. }
  rewrite sum_list_replicate. unfold colspan. rewrite Nat.eqb_refl. lia.
Qed.

(** X26.  The cells the script writes for a player, the name cell
    apart.  Whenever the rows of a player are drawn, they hold one throw
    cell for each of the [frames * 2 + 1] slots and one frame cell for
    each frame, and with at least one frame the [colspan]s of these
    frame cells, like those of the frame cells of the header, add up to
    [frames * 2 + 1].  (What the name, inserted as HTML by line 142,
    adds to the first row is not counted.) *)
Theorem draw_player_columns (stack frames : nat) (strike : Z)
    (s s' : score) (r : row) :
  (1 <= frames)%nat ->
  draw_player stack frames strike s = Some (s', r) ->
  length (row_throws r) = (frames * 2 + 1)%nat
  /\ length (row_frames r) = frames
  /\ sum_list (map fst (row_frames r)) = (frames * 2 + 1)%nat
  /\ sum_list (map fst (header frames)) = (frames * 2 + 1)%nat.
Proof.
  intros Hframes. rewrite draw_player_some. intros [= _ <-].
  cbn [row_throws row_frames].
  assert (length (map (colspan frames) (seq 1 frames)) = frames) as Hspans
    by (by rewrite length_map, length_seq).
  split; [by rewrite length_map, length_seq|].
  split; [rewrite length_zip_with, Hspans, cumulative_row_length; lia|].
  split.
  - rewrite fst_zip by (rewrite Hspans, cumulative_row_length; lia).
    by apply colspan_sum.
  - unfold header. rewrite <- list_fmap_compose.
    by apply colspan_sum.
Qed.

Lemma draw_player_columns_witness :
  exists s' r,
    draw_player 3 10 10 (Score "Ada" all_strikes) = Some (s', r)
    /\ length (row_throws r) = 21%nat
    /\ length (row_frames r) = 10%nat
    /\ sum_list (map fst (row_frames r)) = 21%nat
    /\ sum_list (map fst (header 10)) = 21%nat.
Proof.
  eexists _, _. split; [vm_compute; reflexivity|].
  eapply (draw_player_columns 3 10 10 (Score "Ada" all_strikes));
    [lia | vm_compute; reflexivity].
Defined.

(** X27.  The fields of the input table are visited in order: the name
    fields first, then the throws slot by slot, and for one slot player
    by player; no two fields share a [tabindex]. *)
Theorem tabindex_order (throws player throws' player' : nat) :
  (1 <= player <= players)%nat -> (1 <= player' <= players)%nat ->
  (1 <= throws)%nat ->
  (name_tabindex player' < throw_tabindex throws player)%nat
  /\ ((throw_tabindex throws player < throw_tabindex throws' player')%nat
      <-> (throws < throws')%nat
          \/ (throws = throws' /\ (player < player')%nat))
  /\ (throw_tabindex throws player = throw_tabindex throws' player' ->
      throws = throws' /\ player = player').
Proof. unfold name_tabindex, throw_tabindex, players. lia. Qed.

Lemma tabindex_order_witness :
  (name_tabindex 2 < throw_tabindex 1 1)%nat
  /\ (throw_tabindex 1 2 < throw_tabindex 2 1)%nat.
Proof.
  split.
  - apply (tabindex_order 1 1 1 2); unfold players; lia.
  - apply (tabindex_order 1 2 2 1); unfold players; lia.
Defined.
